(** * mosaic-o-matic: the KD-tree (kdtree.cpp) and the tile mapper
    (maptiles.cpp)

    A shallow embedding of the two source files and the properties of the
    construction (partition / select / construct) and of the nearest
    neighbour search (nearestIndex / findNearestNeighbor).

    Conventions of the embedding.
    - [std::vector<Point<Dim>>] is a [list Point]; [v[i]] on an index outside
      the vector is undefined behaviour in C++ and is the explicit error
      [VectorOutOfRange i] here, so that every read is checked.
    - Indices and dimensions are C++ [int]s, embedded in [Z].  Signed overflow
      is undefined in C++, so there is no wrap-around to write out: the model
      covers the executions in which index arithmetic stays inside [int],
      where it coincides with arithmetic on [Z].  [/] and [%] truncate, hence
      [Z.quot] and [Z.rem].
    - Coordinates are integers; the squared distances, [double]s in the
      source, and the [int] [diff] of [nearestIndex] are computed in [Z].
      The two agree while every value is exactly representable: coordinates
      and squared distances up to 2^53 for the [double]s, squared gaps up to
      2^31 - 1 for the [int]; this holds for the colour channels the tile
      mapper feeds in.  The properties that depend on the value of a
      distance are stated under [exact_distance] or [exact_search].
    - Recursive functions whose termination depends on their arguments carry
      a recursion-depth budget ([fuel]); running out is the error [OutOfFuel],
      and the termination theorems show that it is never reached. *)

From Stdlib Require Import ZArith Lia String.
From stdpp Require Import base list gmap.

Open Scope Z_scope.

(** ** Results of partial operations *)

Inductive error : Type :=
| VectorOutOfRange (i : Z)   (* points[i] with i outside the vector *)
| CoordOutOfRange (d : Z)    (* p[d] with d outside [0, Dim) *)
| OutOfFuel.

Inductive result (A : Type) : Type :=
| Ok (a : A)
| Err (e : error).

Arguments Ok {A} a.
Arguments Err {A} e.

#[global] Instance result_ret : MRet result := fun A a => Ok a.

#[global] Instance result_bind : MBind result := fun A B f m =>
  match m with
  | Ok a => f a
  | Err e => Err e
  end.

Lemma bind_Ok {A B} (a : A) (f : A -> result B) : (Ok a ≫= f) = f a.
Proof. reflexivity. Qed.

Lemma bind_Err {A B} (e : error) (f : A -> result B) : (Err e ≫= f) = Err e.
Proof. reflexivity. Qed.

(** ** Vectors indexed by [int] *)

Section Vector.
Context {A : Type}.

(** [v[i]] as an option: the element, when [i] is inside the vector. *)
Definition at_ (v : list A) (i : Z) : option A :=
  if i <? 0 then None else v !! Z.to_nat i.

(** The checked read [v[i]]. *)
Definition vector_at (v : list A) (i : Z) : result A :=
  match at_ v i with
  | Some x => Ok x
  | None => Err (VectorOutOfRange i)
  end.

(** [std::swap(v[i], v[j])]: both references are taken first. *)
Definition swap (v : list A) (i j : Z) : result (list A) :=
  x ← vector_at v i;
  y ← vector_at v j;
  Ok (<[Z.to_nat j := x]> (<[Z.to_nat i := y]> v)).
End Vector.

(** ** Points *)

(** Modelled from the spec: the class [Point<Dim>] (point.h) is not part of
    the sources.  The spec gives it as an ordered tuple of [Dim] scalar
    coordinates, immutable, with equality on all coordinates and the
    lexicographic order, dimension 0 first.  Coordinates are taken as
    integers.  Reading a coordinate outside [0, Dim) is the error
    [CoordOutOfRange]. *)
Record Point (Dim : Z) : Type := mkPoint {
  coords : list Z;
  coords_len : length coords = Z.to_nat Dim
}.

Arguments mkPoint {Dim} coords coords_len.
Arguments coords {Dim} p.
Arguments coords_len {Dim} p.

(** Modelled from the spec: the lexicographic order of [Point::operator<],
    dimension 0 first (tuples of one tree have the same length, so the case
    of a proper prefix does not arise). *)
Fixpoint lex_ltb (a b : list Z) : bool :=
  match a, b with
  | x :: a', y :: b' =>
      if x <? y then true else if x =? y then lex_ltb a' b' else false
  | [], _ :: _ => true
  | _, [] => false
  end.

(** Modelled from the spec: [Point::operator==], all coordinates equal. *)
Fixpoint lex_eqb (a b : list Z) : bool :=
  match a, b with
  | x :: a', y :: b' => (x =? y) && lex_eqb a' b'
  | [], [] => true
  | _, _ => false
  end.

Section KDTree.
Variable Dim : Z.

Abbreviation Point := (Point Dim).

(** [std::vector<T>]. *)
Abbreviation vector := Datatypes.list.

(** [p[i]] for an index known to be a dimension. *)
Definition coord (p : Point) (i : Z) : Z := nth (Z.to_nat i) (coords p) 0.

(** [p[i]], checked. *)
Definition Point_at (p : Point) (i : Z) : result Z :=
  if (0 <=? i) && (i <? Dim) then Ok (coord p i) else Err (CoordOutOfRange i).

(** [a < b] and [a == b] on points. *)
Definition Point_ltb (a b : Point) : bool := lex_ltb (coords a) (coords b).
Definition Point_eqb (a b : Point) : bool := lex_eqb (coords a) (coords b).

(** *** Comparison policy (kdtree.cpp, lines 8-76) *)

Definition smallerDimVal_msg : string :=
  "[smallerDimVal] ERROR: curDim is bigger than dimension".

(** [smallerDimVal] with what it writes to [cout]: the lines printed and
    the value returned. *)
Definition smallerDimVal_run (first second : Point) (curDim : Z)
  : list string * result bool :=
  if (curDim >=? Dim) || (curDim >=? Dim) then
    ([smallerDimVal_msg], Ok false)
  else
    ([], a ← Point_at first curDim;
         b ← Point_at second curDim;
         if a <? b then Ok true
         else if a =? b then Ok (Point_ltb first second)
         else Ok false).

(** The value [smallerDimVal] returns; this is what its callers use. *)
Definition smallerDimVal (first second : Point) (curDim : Z) : result bool :=
  snd (smallerDimVal_run first second curDim).

(** The loop of [distanceSquared], [i] running over [0 .. Dim-1].  The sum is
    a [double] in the source and is computed here in [Z]: the same value as
    long as it is at most 2^53 (see [exact_distance]). *)
Definition distanceSquared (a b : Point) : Z :=
  fold_left (fun d i => let diff := coord a i - coord b i in d + diff * diff)
            (seqZ 0 Dim) 0.

Definition shouldReplace (target currentBest potential : Point) : bool :=
  if Point_eqb currentBest potential then true
  else
    let currDistance := distanceSquared target currentBest in
    let potDistance := distanceSquared target potential in
    if potDistance <? currDistance then true
    else if potDistance =? currDistance then Point_ltb potential currentBest
    else false.

(** *** Partition engine (kdtree.cpp, lines 138-196) *)

(** The [for] loop of [partition]: [n] iterations are left, [i] is the loop
    variable. *)
Fixpoint partition_loop (n : nat) (list : vector Point) (pivotValue : Point)
    (dim i storeIndex : Z) : result (vector Point * Z) :=
  match n with
  | O => Ok (list, storeIndex)
  | S n' =>
      x ← vector_at list i;
      b ← smallerDimVal x pivotValue dim;
      if b : bool then
        list' ← swap list i storeIndex;
        partition_loop n' list' pivotValue dim (i + 1) (storeIndex + 1)
      else
        partition_loop n' list pivotValue dim (i + 1) storeIndex
  end.

Definition partition (list : vector Point) (low high pivotIndex dim : Z)
  : result (vector Point * Z) :=
  pivotValue ← vector_at list pivotIndex;
  list1 ← swap list pivotIndex high;
  '(list2, storeIndex) ← partition_loop (Z.to_nat (high - low)) list1
                            pivotValue dim low low;
  list3 ← swap list2 high storeIndex;
  Ok (list3, storeIndex).

Fixpoint select (fuel : nat) (list : vector Point) (low high n dim : Z)
  : result (vector Point) :=
  match fuel with
  | O => Err OutOfFuel
  | S fuel' =>
      if low =? high then Ok list
      else
        '(list1, pivotIndex) ← partition list low high n dim;
        if n =? pivotIndex then Ok list1
        else if n <? pivotIndex then
          select fuel' list1 low (pivotIndex - 1) n dim
        else
          select fuel' list1 (pivotIndex + 1) high n dim
  end.

(** *** Tree builder (kdtree.cpp, lines 84-128) *)

Fixpoint construct (fuel : nat) (list : vector Point) (low high n dim : Z)
  : result (vector Point) :=
  match fuel with
  | O => Err OutOfFuel
  | S fuel' =>
      if low >=? high then Ok list
      else
        list1 ← select fuel' list low high n dim;
        list2 ← construct fuel' list1 low (n - 1) ((low + n - 1) ÷ 2)
                  (Z.rem (dim + 1) Dim);
        construct fuel' list2 (n + 1) high ((n + 1 + high) ÷ 2)
          (Z.rem (dim + 1) Dim)
  end.

(** The constructor; the result is the member vector [points]. *)
Definition KDTree (fuel : nat) (newPoints : vector Point)
  : result (vector Point) :=
  if Z.of_nat (length newPoints) =? 0 then Ok []
  else
    let points := newPoints in
    let lo := 0 in
    let hi := Z.of_nat (length newPoints) - 1 in
    let piv := (lo + hi) ÷ 2 in
    construct fuel points lo hi piv 0.

(** *** Nearest-neighbour search (kdtree.cpp, lines 204-270)

    [diff] is an [int] in the source and the distances are [double]s; both
    are computed here in [Z], the same values as long as no squared gap
    exceeds 2^31 - 1 and no squared distance 2^53 (see [exact_search]). *)

Fixpoint nearestIndex (fuel : nat) (points : vector Point) (query : Point)
    (low high dim : Z) : result Z :=
  match fuel with
  | O => Err OutOfFuel
  | S fuel' =>
      if low >? high then Ok low
      else
        let medianIndex := (low + high) ÷ 2 in
        pm ← vector_at points medianIndex;
        b ← smallerDimVal query pm dim;
        currentBest ←
          (if b : bool then
             nearestIndex fuel' points query low (medianIndex - 1)
               (Z.rem (dim + 1) Dim)
           else
             nearestIndex fuel' points query (medianIndex + 1) high
               (Z.rem (dim + 1) Dim));
        pc ← vector_at points currentBest;
        pm ← vector_at points medianIndex;
        let currentBest :=
          if shouldReplace query pc pm then medianIndex else currentBest in
        pm ← vector_at points medianIndex;
        c ← Point_at pm dim;
        q ← Point_at query dim;
        let diff := Z.abs (c - q) in
        let diff := diff * diff in
        pc ← vector_at points currentBest;
        if diff <=? distanceSquared query pc then
          potentialBestIndex ←
            (if currentBest >=? medianIndex then
               nearestIndex fuel' points query low (medianIndex - 1)
                 (Z.rem (dim + 1) Dim)
             else
               nearestIndex fuel' points query (medianIndex + 1) high
                 (Z.rem (dim + 1) Dim));
          pc ← vector_at points currentBest;
          pp ← vector_at points potentialBestIndex;
          Ok (if shouldReplace query pc pp then potentialBestIndex
              else currentBest)
        else Ok currentBest
  end.

(** [points.size() - 1] is computed on [size_t] and converted to [int]: for
    the empty vector the unsigned wrap converts back to [-1]. *)
Definition findNearestNeighbor (fuel : nat) (points : vector Point)
    (query : Point) : result Point :=
  i ← nearestIndex fuel points query 0 (Z.of_nat (length points) - 1) 0;
  vector_at points i.

End KDTree.

(** [Point<3>(x, y, z)]. *)
Definition Point3 (x y z : Z) : Point 3 := @mkPoint 3 [x; y; z] eq_refl.

(** ** The tile mapper (maptiles.cpp)

    The image classes [RGBAPixel], [TileImage], [SourceImage] and
    [MosaicCanvas] are declared outside the sources.  Tiles and source images
    are kept abstract, with the accessors [mapTiles] calls. *)

(** Modelled from the spec: [RGBAPixel], of which the spec uses the three
    colour channels as the coordinates of a colour point. *)
Record RGBAPixel : Type := { red : Z; green : Z; blue : Z }.

(** Modelled from the spec: [MosaicCanvas], the output structure: its size
    and the tile selected for each region. *)
Record MosaicCanvas (TileImage : Type) : Type := {
  canvas_rows : Z;
  canvas_columns : Z;
  canvas_tiles : gmap (Z * Z) TileImage
}.

Arguments canvas_rows {TileImage} m.
Arguments canvas_columns {TileImage} m.
Arguments canvas_tiles {TileImage} m.

(** A loop body run over the elements of [l] in order, stopping at the first
    error. *)
Fixpoint foldM {S A : Type} (f : S -> A -> result S) (l : list A) (s : S)
  : result S :=
  match l with
  | [] => Ok s
  | a :: l' => s' ← f s a; foldM f l' s'
  end.

(** The values of [for (int i = 0; i < n; i++)]. *)
Definition range (n : Z) : list Z := seqZ 0 n.

Section MapTiles.
Variable TileImage : Type.
Variable getAverageColor : TileImage -> RGBAPixel.
(** [TileImage()], which [std::map::operator[]] stores for a missing key. *)
Variable default_TileImage : TileImage.
Variable SourceImage : Type.
Variable getRows getColumns : SourceImage -> Z.
Variable getRegionColor : SourceImage -> Z -> Z -> RGBAPixel.

Abbreviation Canvas := (MosaicCanvas TileImage).

(** [new MosaicCanvas(rows, columns)] and [setTile]. *)
Definition new_MosaicCanvas (rows columns : Z) : Canvas :=
  {| canvas_rows := rows; canvas_columns := columns; canvas_tiles := ∅ |}.

Definition setTile (m : Canvas) (i j : Z) (t : TileImage) : Canvas :=
  {| canvas_rows := canvas_rows m;
     canvas_columns := canvas_columns m;
     canvas_tiles := <[(i, j) := t]> (canvas_tiles m) |}.

(** [Point<3> p(r.red, r.green, r.blue)]. *)
Definition pixel_point (r : RGBAPixel) : Point 3 :=
  Point3 (red r) (green r) (blue r).

(** [std::map<Point<3>, TileImage>], keyed by the coordinates. *)
Abbreviation TileMap := (gmap (list Z) TileImage).

(** [tileImages[p]] as an rvalue: a missing key is inserted with the default
    tile. *)
Definition map_index (tileImages : TileMap) (p : Point 3)
  : TileImage * TileMap :=
  match tileImages !! coords p with
  | Some t => (t, tileImages)
  | None => (default_TileImage, <[coords p := default_TileImage]> tileImages)
  end.

(** The first loop: the colour of every tile, and the tile of every colour
    (a later tile of the same colour replaces an earlier one). *)
Fixpoint tile_loop (theTiles : list TileImage) (tileImages : TileMap)
    (tileColors : list (Point 3)) : TileMap * list (Point 3) :=
  match theTiles with
  | [] => (tileImages, tileColors)
  | t :: rest =>
      let r := getAverageColor t in
      let p := pixel_point r in
      tile_loop rest (<[coords p := t]> tileImages) (tileColors ++ [p])
  end.

(** What the region loops carry: the canvas, the map, and the regions for
    which the tree was queried so far, oldest first (kept to state how often
    the tree is queried; the source has no such list). *)
Record mosaic_state : Type := {
  mosaic : Canvas;
  tileImages : TileMap;
  queried : list (Z * Z)
}.

(** The body of the inner loop, for the region [(i, j)]. *)
Definition region_body (theSource : SourceImage) (fuel : nat)
    (regionColors : list (Point 3)) (i : Z) (st : mosaic_state) (j : Z)
  : result mosaic_state :=
  let regionColor := getRegionColor theSource i j in
  let p := pixel_point regionColor in
  nearest ← findNearestNeighbor 3 fuel regionColors p;
  let '(t, tileImages') := map_index (tileImages st) nearest in
  Ok {| mosaic := setTile (mosaic st) i j t;
        tileImages := tileImages';
        queried := queried st ++ [(i, j)] |}.

(** [mapTiles]: the canvas returned, with the regions queried.  The tree is
    built and searched with a budget above the number of tiles, which the
    termination theorem shows to be enough. *)
Definition mapTiles (theSource : SourceImage) (theTiles : list TileImage)
  : result (Canvas * list (Z * Z)) :=
  let mosaic0 := new_MosaicCanvas (getRows theSource) (getColumns theSource) in
  let '(tileImages0, tileColors) := tile_loop theTiles ∅ [] in
  let fuel := S (length tileColors) in
  regionColors ← KDTree 3 fuel tileColors;
  st ← foldM (fun st i =>
               foldM (region_body theSource fuel regionColors i)
                     (range (canvas_columns mosaic0)) st)
             (range (canvas_rows mosaic0))
             {| mosaic := mosaic0; tileImages := tileImages0; queried := [] |};
  Ok (mosaic st, queried st).

End MapTiles.

Arguments setTile {TileImage} m i j t.
Arguments map_index {TileImage} default_TileImage tileImages p.
Arguments tile_loop {TileImage} getAverageColor theTiles tileImages tileColors.
Arguments mosaic {TileImage} m.
Arguments tileImages {TileImage} m.
Arguments queried {TileImage} m.
Arguments region_body {TileImage} default_TileImage {SourceImage}
  getRegionColor theSource fuel regionColors i st j.
Arguments mapTiles {TileImage} getAverageColor default_TileImage {SourceImage}
  getRows getColumns getRegionColor theSource theTiles.

(** * Vocabulary of the specification *)

(** ** Reordering inside an index range *)

(** [l'] is [l] with the elements at the indices [low .. high] permuted
    among themselves and everything else left in place. *)
Definition reorders {A : Type} (low high : Z) (l l' : list A) : Prop :=
  l ≡ₚ l'
  /\ (forall i, ~ (low <= i <= high) -> at_ l' i = at_ l i)
  /\ (forall i, low <= i <= high ->
        exists j, low <= j <= high /\ at_ l' i = at_ l j).

(** ** The order of the points and the invariant of the tree *)

Section Vocabulary.
Variable Dim : Z.
Implicit Types (a b : Point Dim) (pts : list (Point Dim)) (low high d : Z).

(** [a] strictly precedes [b] along dimension [d], ties broken by [<]. *)
Definition dimLt a b d : bool :=
  (coord Dim a d <? coord Dim b d)
  || ((coord Dim a d =? coord Dim b d) && Point_ltb Dim a b).

(** Every element at an index in [lo, hi) satisfies [P]. *)
Definition all_in pts (lo hi : Z) (P : Point Dim -> Prop) : Prop :=
  forall k x, lo <= k < hi -> at_ pts k = Some x -> P x.

(** [in_tree low high d l h d']: the recursive split started at the range
    [low, high] with dimension [d] visits the range [l, h] with dimension
    [d'].  A non-empty range is split at its midpoint [m] into
    [low, m-1] and [m+1, high], with the next dimension. *)
Inductive in_tree : Z -> Z -> Z -> Z -> Z -> Z -> Prop :=
| in_tree_here low high d : in_tree low high d low high d
| in_tree_left low high d l h d' :
    low <= high ->
    in_tree low ((low + high) ÷ 2 - 1) (Z.rem (d + 1) Dim) l h d' ->
    in_tree low high d l h d'
| in_tree_right low high d l h d' :
    low <= high ->
    in_tree ((low + high) ÷ 2 + 1) high (Z.rem (d + 1) Dim) l h d' ->
    in_tree low high d l h d'.

(** The invariant of one range: nothing left of the median comes after it,
    nothing right of the median comes before it (along [d], ties broken). *)
Definition split_ok pts low high d : Prop :=
  forall pm, at_ pts ((low + high) ÷ 2) = Some pm ->
  forall k x, low <= k <= high -> at_ pts k = Some x ->
    (k < (low + high) ÷ 2 -> dimLt pm x d = false)
    /\ ((low + high) ÷ 2 < k -> dimLt x pm d = false).

(** Every coordinate of [a] is an integer a [double] holds exactly. *)
Definition representable a : Prop :=
  Forall (fun x => Z.abs x <= 2 ^ 53) (coords a).

(** The squared distance between [a] and [b] is computed exactly by the
    [double] arithmetic of the source: the coordinates are representable and
    the sum, hence every square and every partial sum, is at most 2^53. *)
Definition exact_distance a b : Prop :=
  representable a /\ representable b /\ distanceSquared Dim a b <= 2 ^ 53.

(** The search for [a] among [pts] computes exactly: the squared distance to
    every point fits an [int], so that no [diff * diff] overflows and every
    [double] is exact. *)
Definition exact_search a pts : Prop :=
  representable a
  /\ forall p, p ∈ pts ->
       representable p /\ distanceSquared Dim a p <= 2 ^ 31 - 1.

End Vocabulary.

(** ** The regions of a canvas and their tiles *)

(** The regions of a canvas in the order of the two loops. *)
Definition regions (rows columns : Z) : list (Z * Z) :=
  flat_map (fun i => map (pair i) (range columns)) (range rows).

Section TileVocabulary.
Context {TileImage SourceImage : Type}.
Variable getRegionColor : SourceImage -> Z -> Z -> RGBAPixel.
Variable theSource : SourceImage.
Variable fuel : nat.
Variable regionColors : list (Point 3).
Variable tileImages0 : gmap (list Z) TileImage.

(** The query made for the region [(i, j)] returns a point. *)
Definition answered (i j : Z) : Prop :=
  exists nearest,
    findNearestNeighbor 3 fuel regionColors
      (pixel_point (getRegionColor theSource i j)) = Ok nearest.

(** [t] is the tile the map gives for the nearest neighbour found for the
    region [k]. *)
Definition right_tile (k : Z * Z) (t : TileImage) : Prop :=
  exists nearest,
    findNearestNeighbor 3 fuel regionColors
      (pixel_point (getRegionColor theSource k.1 k.2)) = Ok nearest
    /\ tileImages0 !! coords nearest = Some t.

(** Every tile set on the canvas is the right one for its region. *)
Definition good (m : MosaicCanvas TileImage) : Prop :=
  forall k t, canvas_tiles m !! k = Some t -> right_tile k t.

(** Every region that has a tile on [m] has one on [m']. *)
Definition keeps (m m' : MosaicCanvas TileImage) : Prop :=
  forall k, is_Some (canvas_tiles m !! k) -> is_Some (canvas_tiles m' !! k).

End TileVocabulary.

(** ** Concrete inputs *)

(** Three tile colours, already in tree order. *)
Definition three_points : list (Point 3) :=
  [Point3 0 100 0; Point3 5 0 0; Point3 6 10 0].

Definition five_points : list (Point 3) :=
  [Point3 255 0 0; Point3 0 255 0; Point3 0 0 255; Point3 3 3 3; Point3 1 1 1].

(** One tile, of average colour (1,2,3). *)
Definition one_colour (_ : nat) : RGBAPixel :=
  {| red := 1; green := 2; blue := 3 |}.

(** A source image of one region, of colour (5,5,5). *)
Definition grey_region (_ : unit) (_ _ : Z) : RGBAPixel :=
  {| red := 5; green := 5; blue := 5 |}.

(** A source image of one region, of colour (0,0,0). *)
Definition black_region (_ : unit) (_ _ : Z) : RGBAPixel :=
  {| red := 0; green := 0; blue := 0 |}.

(** * Properties *)

(** Linear arithmetic with the truncating [÷] and [rem] of index
    computations. *)
Ltac qlia := Z.to_euclidean_division_equations; lia.

(** ** Vector reads and swaps *)

Section VectorFacts.
Context {A : Type}.
Implicit Types (v : list A) (i j k : Z) (x y : A).

Lemma at_Some_range v i x :
  at_ v i = Some x -> 0 <= i < Z.of_nat (length v).
Proof.
  unfold at_. destruct (Z.ltb_spec i 0) as [|Hi]; [discriminate|].
  intros H. apply lookup_lt_Some in H. lia.
Qed.

Lemma at_in_range v i :
  0 <= i < Z.of_nat (length v) -> exists x, at_ v i = Some x.
Proof.
  intros Hi. unfold at_. destruct (Z.ltb_spec i 0); [lia|].
  destruct (lookup_lt_is_Some_2 v (Z.to_nat i)) as [x Hx]; [lia|eauto].
Qed.

Lemma at_None v i :
  ~ (0 <= i < Z.of_nat (length v)) -> at_ v i = None.
Proof.
  intros Hi. destruct (at_ v i) as [x|] eqn:E; [|reflexivity].
  apply at_Some_range in E. lia.
Qed.

Lemma at_elem_of v i x : at_ v i = Some x -> x ∈ v.
Proof.
  unfold at_. destruct (i <? 0); [discriminate|].
  intros H. apply list_elem_of_lookup. eauto.
Qed.

Lemma vector_at_Ok v i x : at_ v i = Some x -> vector_at v i = Ok x.
Proof. unfold vector_at. intros ->. reflexivity. Qed.

Lemma vector_at_Ok_inv v i x : vector_at v i = Ok x -> at_ v i = Some x.
Proof. unfold vector_at. destruct (at_ v i); congruence. Qed.

Lemma vector_at_Err v i :
  ~ (0 <= i < Z.of_nat (length v)) -> vector_at v i = Err (VectorOutOfRange i).
Proof. intros H. unfold vector_at. rewrite at_None; auto. Qed.

Lemma insert_head_perm (l : list A) (n : nat) x y :
  l !! n = Some y -> y :: <[n := x]> l ≡ₚ x :: l.
Proof.
  revert n. induction l as [|a l IH]; intros [|n] H; simpl in *; try discriminate.
  - injection H as ->. apply perm_swap.
  - rewrite (perm_swap a y). rewrite (IH n H). apply perm_swap.
Qed.

Lemma insert_swap_perm (l : list A) (n m : nat) x y :
  l !! n = Some x -> l !! m = Some y ->
  <[m := x]> (<[n := y]> l) ≡ₚ l.
Proof.
  revert n m. induction l as [|a l IH]; intros [|n] [|m] Hn Hm;
    simpl in *; try discriminate.
  - injection Hn as ->. reflexivity.
  - injection Hn as ->. apply insert_head_perm. exact Hm.
  - injection Hm as ->. apply insert_head_perm. exact Hn.
  - f_equiv. apply IH; assumption.
Qed.

(** What [std::swap(v[i], v[j])] does when both indices are inside. *)
Lemma swap_spec v i j x y :
  at_ v i = Some x -> at_ v j = Some y ->
  exists v', swap v i j = Ok v'
    /\ at_ v' i = Some y /\ at_ v' j = Some x
    /\ (forall k, k <> i -> k <> j -> at_ v' k = at_ v k)
    /\ v ≡ₚ v'.
Proof.
  intros Hi Hj.
  pose proof (at_Some_range _ _ _ Hi) as Ri.
  pose proof (at_Some_range _ _ _ Hj) as Rj.
  unfold swap. rewrite (vector_at_Ok _ _ _ Hi), (vector_at_Ok _ _ _ Hj).
  rewrite !bind_Ok. eexists. split; [reflexivity|].
  unfold at_ in *.
  destruct (Z.ltb_spec i 0); [lia|]. destruct (Z.ltb_spec j 0); [lia|].
  repeat split.
  - destruct (decide (Z.to_nat j = Z.to_nat i)) as [E|NE].
    + rewrite E. rewrite list_lookup_insert_eq by (rewrite length_insert; lia).
      congruence.
    + rewrite list_lookup_insert_ne by exact NE.
      rewrite list_lookup_insert_eq by lia. reflexivity.
  - rewrite list_lookup_insert_eq by (rewrite length_insert; lia). reflexivity.
  - intros k Hki Hkj. destruct (Z.ltb_spec k 0); [reflexivity|].
    rewrite !list_lookup_insert_ne by lia. reflexivity.
  - symmetry. apply insert_swap_perm; assumption.
Qed.
End VectorFacts.

(** ** Reordering inside an index range *)

Section Reorders.
Context {A : Type}.
Implicit Types (l : list A) (low high : Z).

Lemma reorders_refl low high l : reorders low high l l.
Proof. repeat split; eauto. Qed.

Lemma reorders_trans low high l1 l2 l3 :
  reorders low high l1 l2 -> reorders low high l2 l3 ->
  reorders low high l1 l3.
Proof.
  intros (P1 & F1 & S1) (P2 & F2 & S2). repeat split.
  - etransitivity; eassumption.
  - intros i Hi. rewrite F2, F1; auto.
  - intros i Hi. destruct (S2 i Hi) as (j & Hj & ->). apply S1, Hj.
Qed.

Lemma reorders_mono low high low' high' l l' :
  low' <= low -> high <= high' ->
  reorders low high l l' -> reorders low' high' l l'.
Proof.
  intros Hl Hh (P & F & S). repeat split; [exact P| |].
  - intros i Hi. apply F. lia.
  - intros i Hi.
    destruct (decide (low <= i <= high)) as [In|Out].
    + destruct (S i In) as (j & Hj & E). exists j. split; [lia|exact E].
    + exists i. split; [lia|]. apply F, Out.
Qed.

Lemma reorders_length low high l l' :
  reorders low high l l' -> length l' = length l.
Proof. intros (P & _). symmetry. apply Permutation_length, P. Qed.

Lemma reorders_swap low high l l' i j :
  low <= i <= high -> low <= j <= high ->
  0 <= i < Z.of_nat (length l) -> 0 <= j < Z.of_nat (length l) ->
  swap l i j = Ok l' -> reorders low high l l'.
Proof.
  intros Hi Hj Ri Rj Hs.
  destruct (at_in_range l i Ri) as [x Hx].
  destruct (at_in_range l j Rj) as [y Hy].
  destruct (swap_spec l i j x y Hx Hy) as (v' & E & Ei & Ej & Ek & P).
  assert (v' = l') by congruence. subst v'.
  repeat split; [exact P| |].
  - intros k Hk. apply Ek; lia.
  - intros k Hk.
    destruct (decide (k = i)) as [->|Ni]; [exists j; split; [lia|congruence]|].
    destruct (decide (k = j)) as [->|Nj]; [exists i; split; [lia|congruence]|].
    exists k. split; [lia|]. apply Ek; assumption.
Qed.
End Reorders.

(** ** The order used for splitting *)

Lemma lex_ltb_irrefl a : lex_ltb a a = false.
Proof.
  induction a as [|x a IH]; simpl; [reflexivity|].
  rewrite Z.ltb_irrefl, Z.eqb_refl. exact IH.
Qed.

Lemma lex_ltb_trans a : forall b c,
  lex_ltb a b = true -> lex_ltb b c = true -> lex_ltb a c = true.
Proof.
  induction a as [|x a IH]; intros [|y b] [|z c]; simpl; try congruence.
  destruct (Z.ltb_spec x y), (Z.ltb_spec y z), (Z.ltb_spec x z);
    try reflexivity; try lia;
    destruct (Z.eqb_spec x y), (Z.eqb_spec y z), (Z.eqb_spec x z);
    try congruence; try lia.
  apply IH.
Qed.

Lemma lex_eqb_eq a : forall b, lex_eqb a b = true <-> a = b.
Proof.
  induction a as [|x a IH]; intros [|y b]; simpl; split; try congruence.
  - intros H. apply andb_true_iff in H as [H1 H2].
    apply Z.eqb_eq in H1. apply IH in H2. congruence.
  - intros H. injection H as -> ->. rewrite Z.eqb_refl. simpl. apply IH. reflexivity.
Qed.

Section Order.
Variable Dim : Z.
Implicit Types (a b c : Point Dim) (d : Z).

Lemma smallerDimVal_valid a b d :
  0 <= d < Dim -> smallerDimVal Dim a b d = Ok (dimLt Dim a b d).
Proof.
  intros Hd. unfold smallerDimVal, smallerDimVal_run, Point_at, dimLt.
  destruct (Z.geb_spec d Dim); [lia|]. simpl.
  destruct (Z.leb_spec 0 d); [|lia]. destruct (Z.ltb_spec d Dim); [|lia].
  simpl.
  destruct (coord Dim a d <? coord Dim b d); [reflexivity|].
  destruct (coord Dim a d =? coord Dim b d); reflexivity.
Qed.

Lemma dimLt_spec a b d :
  dimLt Dim a b d = true <->
  coord Dim a d < coord Dim b d
  \/ (coord Dim a d = coord Dim b d /\ Point_ltb Dim a b = true).
Proof.
  unfold dimLt. rewrite orb_true_iff, andb_true_iff, Z.ltb_lt, Z.eqb_eq.
  reflexivity.
Qed.

Lemma dimLt_irrefl a d : dimLt Dim a a d = false.
Proof.
  unfold dimLt, Point_ltb. rewrite Z.ltb_irrefl, Z.eqb_refl, lex_ltb_irrefl.
  reflexivity.
Qed.

Lemma dimLt_trans a b c d :
  dimLt Dim a b d = true -> dimLt Dim b c d = true -> dimLt Dim a c d = true.
Proof.
  rewrite !dimLt_spec. unfold Point_ltb.
  intros [H1|[H1 L1]] [H2|[H2 L2]]; try (left; lia).
  right. split; [lia|]. eapply lex_ltb_trans; eassumption.
Qed.

Lemma dimLt_asym a b d : dimLt Dim a b d = true -> dimLt Dim b a d = false.
Proof.
  intros H. destruct (dimLt Dim b a d) eqn:E; [|reflexivity].
  pose proof (dimLt_trans _ _ _ _ H E) as T.
  rewrite dimLt_irrefl in T. discriminate.
Qed.

(** [x < p] and [not (y < p)] give [not (y < x)]. *)
Lemma dimLt_below_above x y p d :
  dimLt Dim x p d = true -> dimLt Dim y p d = false -> dimLt Dim y x d = false.
Proof.
  intros Hx Hy. destruct (dimLt Dim y x d) eqn:E; [|reflexivity].
  rewrite (dimLt_trans _ _ _ _ E Hx) in Hy. discriminate.
Qed.

Lemma dimLt_false_coord a b d :
  dimLt Dim b a d = false -> coord Dim a d <= coord Dim b d.
Proof.
  unfold dimLt. intros H. apply orb_false_iff in H as [H _].
  apply Z.ltb_ge in H. exact H.
Qed.
End Order.

(** ** Partition *)

Section PartitionFacts.
Variable Dim : Z.
Implicit Types (list : list (Point Dim)) (low high dim : Z).

(** The loop invariant of [partition]: below [storeIndex] the elements
    precede the pivot, from [storeIndex] up to [i] they do not. *)
Lemma partition_loop_spec pivot dim low high :
  0 <= dim < Dim -> 0 <= low ->
  forall n list i s,
    i + Z.of_nat n = high -> low <= s <= i ->
    high <= Z.of_nat (length list) ->
    all_in Dim list low s (fun x => dimLt Dim x pivot dim = true) ->
    all_in Dim list s i (fun x => dimLt Dim x pivot dim = false) ->
    exists list' s',
      partition_loop Dim n list pivot dim i s = Ok (list', s')
      /\ s <= s' <= high
      /\ reorders low (high - 1) list list'
      /\ all_in Dim list' low s' (fun x => dimLt Dim x pivot dim = true)
      /\ all_in Dim list' s' high (fun x => dimLt Dim x pivot dim = false).
Proof.
  intros Hd Hlow. induction n as [|n IH]; intros list i s Hn Hs Hlen HL HR.
  - simpl. exists list, s. split; [reflexivity|].
    replace high with i by lia.
    split; [lia|]. split; [apply reorders_refl|]. split; assumption.
  - destruct (at_in_range list i) as [x Hx]; [lia|].
    destruct (at_in_range list s) as [y Hy]; [lia|].
    cbn [partition_loop]. rewrite (vector_at_Ok _ _ _ Hx), bind_Ok.
    rewrite smallerDimVal_valid by exact Hd. rewrite bind_Ok.
    destruct (dimLt Dim x pivot dim) eqn:Ex.
    + destruct (swap_spec list i s x y Hx Hy) as (l1 & E & Ei & Es & Ek & P).
      rewrite E, bind_Ok.
      assert (R1 : reorders low (high - 1) list l1).
      { apply (reorders_swap _ _ _ _ i s); try lia. exact E. }
      destruct (IH l1 (i + 1) (s + 1)) as (l2 & s' & E2 & Hs' & R2 & L2 & G2).
      * lia.
      * lia.
      * rewrite (reorders_length _ _ _ _ R1). exact Hlen.
      * intros k z Hk Hz. destruct (decide (k = s)) as [->|Nk].
        -- congruence.
        -- rewrite Ek in Hz by lia. apply (HL k); [lia|exact Hz].
      * intros k z Hk Hz. destruct (decide (k = i)) as [->|Nk].
        -- assert (z = y) by congruence. subst z.
           apply (HR s); [lia|exact Hy].
        -- rewrite Ek in Hz by lia. apply (HR k); [lia|exact Hz].
      * exists l2, s'. split; [exact E2|]. split; [lia|].
        split; [eapply reorders_trans; eassumption|]. split; assumption.
    + destruct (IH list (i + 1) s) as (l2 & s' & E2 & Hs' & R2 & L2 & G2).
      * lia.
      * lia.
      * exact Hlen.
      * exact HL.
      * intros k z Hk Hz. destruct (decide (k = i)) as [->|Nk].
        -- congruence.
        -- apply (HR k); [lia|exact Hz].
      * exists l2, s'. split; [exact E2|]. split; [lia|].
        split; [exact R2|]. split; assumption.
Qed.

(** The contract of [partition]. *)
Lemma partition_spec list low high pivotIndex dim pivot :
  0 <= dim < Dim ->
  0 <= low -> low <= pivotIndex <= high -> high < Z.of_nat (length list) ->
  at_ list pivotIndex = Some pivot ->
  exists list' r,
    partition Dim list low high pivotIndex dim = Ok (list', r)
    /\ low <= r <= high
    /\ reorders low high list list'
    /\ at_ list' r = Some pivot
    /\ all_in Dim list' low r (fun x => dimLt Dim x pivot dim = true)
    /\ all_in Dim list' (r + 1) (high + 1) (fun x => dimLt Dim x pivot dim = false).
Proof.
  intros Hd Hlow Hp Hhigh Hpiv.
  destruct (at_in_range list high) as [h Hh]; [lia|].
  unfold partition. rewrite (vector_at_Ok _ _ _ Hpiv), bind_Ok.
  destruct (swap_spec list pivotIndex high pivot h Hpiv Hh)
    as (l1 & E1 & E1p & E1h & E1k & P1).
  rewrite E1, bind_Ok.
  assert (R1 : reorders low high list l1).
  { apply (reorders_swap _ _ _ _ pivotIndex high); try lia. exact E1. }
  pose proof (reorders_length _ _ _ _ R1) as Len1.
  destruct (partition_loop_spec pivot dim low high Hd Hlow
              (Z.to_nat (high - low)) l1 low low)
    as (l2 & s & E2 & Hs & R2 & L2 & G2).
  { lia. } { lia. } { lia. }
  { intros k x Hk. lia. } { intros k x Hk. lia. }
  rewrite E2, bind_Ok.
  pose proof (reorders_length _ _ _ _ R2) as Len2.
  assert (H2h : at_ l2 high = Some pivot).
  { destruct R2 as (_ & F & _). rewrite F by lia. exact E1h. }
  destruct (at_in_range l2 s) as [z Hz]; [lia|].
  destruct (swap_spec l2 high s pivot z H2h Hz)
    as (l3 & E3 & E3h & E3s & E3k & P3).
  rewrite E3, bind_Ok. exists l3, s. split; [reflexivity|].
  split; [lia|]. split.
  { eapply reorders_trans; [exact R1|].
    eapply reorders_trans.
    - apply (reorders_mono low (high - 1)); [lia|lia|exact R2].
    - apply (reorders_swap _ _ _ _ high s); try lia. exact E3. }
  split; [exact E3s|]. split.
  - intros k x Hk Hx. rewrite E3k in Hx by lia. apply (L2 k); [lia|exact Hx].
  - intros k x Hk Hx. destruct (decide (k = high)) as [->|Nk].
    + assert (x = z) by congruence. subst x. apply (G2 s); [lia|exact Hz].
    + rewrite E3k in Hx by lia. apply (G2 k); [lia|exact Hx].
Qed.
End PartitionFacts.

(** ** QuickSelect *)

Section SelectFacts.
Variable Dim : Z.
Implicit Types (list : list (Point Dim)) (low high n dim : Z).

(** A larger budget does not change a result already obtained. *)
Lemma select_fuel_mono dim : forall fuel fuel' list low high n r,
  select Dim fuel list low high n dim = Ok r -> (fuel <= fuel')%nat ->
  select Dim fuel' list low high n dim = Ok r.
Proof.
  induction fuel as [|fuel IH]; intros [|fuel'] list low high n r H Hle;
    simpl in *; try discriminate; try lia.
  destruct (low =? high); [exact H|].
  destruct (partition Dim list low high n dim) as [[l1 p]|e];
    simpl in *; [|discriminate].
  destruct (n =? p); [exact H|].
  destruct (n <? p); apply (IH fuel'); auto; lia.
Qed.

(** The contract of [select]: with [n] inside the range and a budget of at
    least the size of the range, the element that ends at index [n] has
    nothing after it on its left and nothing before it on its right. *)
Lemma select_spec dim :
  0 <= dim < Dim ->
  forall fuel list low high n,
    0 <= low -> low <= n <= high -> high < Z.of_nat (length list) ->
    high - low < Z.of_nat fuel ->
    exists list' pm,
      select Dim fuel list low high n dim = Ok list'
      /\ reorders low high list list'
      /\ at_ list' n = Some pm
      /\ all_in Dim list' low n (fun x => dimLt Dim pm x dim = false)
      /\ all_in Dim list' (n + 1) (high + 1)
           (fun x => dimLt Dim x pm dim = false).
Proof.
  intros Hd. induction fuel as [|fuel IH];
    intros list low high n Hlow Hn Hhigh Hfuel; [lia|].
  destruct (at_in_range list n) as [pivot Hpiv]; [lia|].
  cbn [select]. destruct (Z.eqb_spec low high) as [->|Hne].
  { exists list, pivot. split; [reflexivity|]. split; [apply reorders_refl|].
    split; [exact Hpiv|]. split; intros k x Hk; lia. }
  destruct (partition_spec Dim list low high n dim pivot Hd Hlow Hn Hhigh Hpiv)
    as (l1 & r & E & Hr & R1 & Hpr & L1 & G1).
  rewrite E, bind_Ok. cbn beta iota.
  pose proof (reorders_length _ _ _ _ R1) as Len1.
  destruct (Z.eqb_spec n r) as [->|Hnr].
  { exists l1, pivot. split; [reflexivity|]. split; [exact R1|].
    split; [exact Hpr|]. split; [|exact G1].
    intros k x Hk Hx. apply dimLt_asym. apply (L1 k); assumption. }
  destruct (Z.ltb_spec n r) as [Hlt|Hge].
  - destruct (IH l1 low (r - 1) n) as (l2 & pm & E2 & R2 & Hpm & L2 & G2);
      try lia.
    exists l2, pm. split; [exact E2|].
    split.
    { eapply reorders_trans; [exact R1|].
      apply (reorders_mono low (r - 1)); [lia|lia|exact R2]. }
    split; [exact Hpm|]. split; [exact L2|].
    destruct R2 as (_ & F2 & S2).
    destruct (S2 n) as (j & Hj & Ej); [lia|].
    assert (Hpmlt : dimLt Dim pm pivot dim = true).
    { apply (L1 j); [lia|]. rewrite <- Ej. exact Hpm. }
    intros k x Hk Hx.
    destruct (decide (k < r)) as [Hkr|Hkr].
    + apply (G2 k); [lia|exact Hx].
    + rewrite F2 in Hx by lia.
      destruct (decide (k = r)) as [->|Nk].
      * assert (x = pivot) by congruence. subst x.
        apply dimLt_asym. exact Hpmlt.
      * apply (dimLt_below_above Dim pm x pivot); [exact Hpmlt|].
        apply (G1 k); [lia|exact Hx].
  - destruct (IH l1 (r + 1) high n) as (l2 & pm & E2 & R2 & Hpm & L2 & G2);
      try lia.
    exists l2, pm. split; [exact E2|].
    split.
    { eapply reorders_trans; [exact R1|].
      apply (reorders_mono (r + 1) high); [lia|lia|exact R2]. }
    split; [exact Hpm|]. split; [|exact G2].
    destruct R2 as (_ & F2 & S2).
    destruct (S2 n) as (j & Hj & Ej); [lia|].
    assert (Hpmge : dimLt Dim pm pivot dim = false).
    { apply (G1 j); [lia|]. rewrite <- Ej. exact Hpm. }
    intros k x Hk Hx.
    destruct (decide (r < k)) as [Hkr|Hkr].
    + apply (L2 k); [lia|exact Hx].
    + rewrite F2 in Hx by lia.
      destruct (decide (k = r)) as [->|Nk].
      * assert (x = pivot) by congruence. subst x. exact Hpmge.
      * apply (dimLt_below_above Dim x pm pivot); [|exact Hpmge].
        apply (L1 k); [lia|exact Hx].
Qed.
End SelectFacts.

(** ** The implicit tree and its invariant *)

Section TreeFacts.
Variable Dim : Z.
Hypothesis Dim_pos : 0 < Dim.
Implicit Types (list pts : list (Point Dim)) (low high n dim : Z).

Lemma next_dim_valid d : 0 <= d < Dim -> 0 <= Z.rem (d + 1) Dim < Dim.
Proof. intros Hd. apply Z.rem_bound_pos; lia. Qed.

Lemma in_tree_inside low high d l h d' :
  in_tree Dim low high d l h d' ->
  (low <= l /\ h <= high) /\ (0 <= d < Dim -> 0 <= d' < Dim).
Proof.
  induction 1 as [low high d|low high d l h d' Hle _ IH|low high d l h d' Hle _ IH].
  - split; [lia|auto].
  - destruct IH as [B V]. split; [qlia|].
    intros Hd. apply V, next_dim_valid, Hd.
  - destruct IH as [B V]. split; [qlia|].
    intros Hd. apply V, next_dim_valid, Hd.
Qed.

Lemma in_tree_small low high d l h d' :
  in_tree Dim low high d l h d' -> high <= low -> h <= l.
Proof.
  induction 1 as [low high d|low high d l h d' Hle _ IH|low high d l h d' Hle _ IH];
    intros Hs; [lia| |]; apply IH; qlia.
Qed.

Lemma split_ok_small pts l h d : h <= l -> split_ok Dim pts l h d.
Proof. intros Hs pm _ k x Hk _. split; intros; qlia. Qed.

(** The invariant of a range only reads the range. *)
Lemma split_ok_agree pts pts' l h d :
  (forall k, l <= k <= h -> at_ pts' k = at_ pts k) ->
  split_ok Dim pts l h d -> split_ok Dim pts' l h d.
Proof.
  intros Hag Hok pm Hpm k x Hk Hx.
  rewrite Hag in Hpm by qlia. rewrite Hag in Hx by lia.
  apply (Hok pm Hpm k x Hk Hx).
Qed.

Lemma construct_fuel_mono : forall fuel fuel' list low high n dim r,
  construct Dim fuel list low high n dim = Ok r -> (fuel <= fuel')%nat ->
  construct Dim fuel' list low high n dim = Ok r.
Proof.
  induction fuel as [|fuel IH]; intros [|fuel'] list low high n dim r H Hle;
    simpl in *; try discriminate; try lia.
  destruct (low >=? high); [exact H|].
  destruct (select Dim fuel list low high n dim) as [l1|e] eqn:E1;
    simpl in H; [|discriminate].
  rewrite (select_fuel_mono Dim dim fuel fuel' _ _ _ _ _ E1) by lia. simpl.
  destruct (construct Dim fuel l1 low (n - 1) ((low + n - 1) ÷ 2)
              (Z.rem (dim + 1) Dim)) as [l2|e] eqn:E2;
    simpl in H; [|discriminate].
  rewrite (IH fuel' _ _ _ _ _ _ E2) by lia. simpl.
  apply (IH fuel'); [exact H|lia].
Qed.

(** The frame of [construct]: whatever index [n] inside the range is asked
    for, the call returns and reorders the range and nothing else. *)
Lemma construct_reorders : forall fuel list low high n dim,
  0 <= dim < Dim -> 0 <= low -> high < Z.of_nat (length list) ->
  (low < high -> low <= n <= high) ->
  Z.max 0 (high - low + 1) < Z.of_nat fuel ->
  exists list',
    construct Dim fuel list low high n dim = Ok list'
    /\ reorders low high list list'.
Proof.
  induction fuel as [|fuel IH];
    intros list low high n dim Hd Hlow Hhigh Hn Hfuel; [lia|].
  cbn [construct]. destruct (Z.geb_spec low high) as [Hge|Hlt].
  { exists list. split; [reflexivity|apply reorders_refl]. }
  specialize (Hn Hlt).
  destruct (select_spec Dim dim Hd fuel list low high n)
    as (l1 & pm & E1 & R1 & _); try lia.
  rewrite E1, bind_Ok.
  pose proof (reorders_length _ _ _ _ R1) as Len1.
  pose proof (next_dim_valid dim Hd) as Hd'.
  destruct (IH l1 low (n - 1) ((low + n - 1) ÷ 2) (Z.rem (dim + 1) Dim) Hd')
    as (l2 & E2 & R2); try lia; try qlia.
  rewrite E2, bind_Ok.
  pose proof (reorders_length _ _ _ _ R2) as Len2.
  destruct (IH l2 (n + 1) high ((n + 1 + high) ÷ 2) (Z.rem (dim + 1) Dim) Hd')
    as (l3 & E3 & R3); try lia; try qlia.
  exists l3. split; [exact E3|].
  eapply reorders_trans; [exact R1|].
  eapply reorders_trans.
  - apply (reorders_mono low (n - 1)); [lia|lia|exact R2].
  - apply (reorders_mono (n + 1) high); [lia|lia|exact R3].
Qed.
(** The invariant [construct] establishes when it is asked, as the
    constructor and its own recursive calls do, for the midpoint. *)
Lemma construct_inv : forall fuel list low high dim list',
  0 <= dim < Dim -> 0 <= low -> high < Z.of_nat (length list) ->
  Z.max 0 (high - low + 1) < Z.of_nat fuel ->
  construct Dim fuel list low high ((low + high) ÷ 2) dim = Ok list' ->
  forall l h d', in_tree Dim low high dim l h d' -> split_ok Dim list' l h d'.
Proof.
  induction fuel as [|fuel IH];
    intros list low high dim list' Hd Hlow Hhigh Hfuel H l h d' Htree; [lia|].
  cbn [construct] in H. destruct (Z.geb_spec low high) as [Hge|Hlt].
  { apply split_ok_small. eapply in_tree_small; [exact Htree|lia]. }
  set (n := (low + high) ÷ 2) in *.
  assert (Hn : low <= n <= high) by (subst n; qlia).
  pose proof (next_dim_valid dim Hd) as Hd'.
  destruct (select_spec Dim dim Hd fuel list low high n)
    as (l1 & pm & E1 & R1 & Hpm & L1 & G1); try lia.
  rewrite E1, bind_Ok in H.
  pose proof (reorders_length _ _ _ _ R1) as Len1.
  replace (low + n - 1) with (low + (n - 1)) in H by lia.
  destruct (construct_reorders fuel l1 low (n - 1) ((low + (n - 1)) ÷ 2)
              (Z.rem (dim + 1) Dim) Hd') as (l2 & E2 & R2);
    try lia; try qlia.
  rewrite E2, bind_Ok in H.
  pose proof (reorders_length _ _ _ _ R2) as Len2.
  destruct (construct_reorders fuel l2 (n + 1) high ((n + 1 + high) ÷ 2)
              (Z.rem (dim + 1) Dim) Hd') as (l3 & E3 & R3);
    try lia; try qlia.
  assert (l3 = list') by congruence. subst l3. clear H.
  destruct R2 as (_ & F2 & S2). destruct R3 as (_ & F3 & S3).
  inversion Htree as [? ? ?|? ? ? ? ? ? Hle Hsub|? ? ? ? ? ? Hle Hsub]; subst.
  - intros pm' Hpm' k x Hk Hx. fold n in Hpm' |- *.
    rewrite F3, F2 in Hpm' by lia.
    assert (pm' = pm) by congruence. subst pm'.
    split; intros Hkn.
    + rewrite F3 in Hx by lia.
      destruct (S2 k) as (j & Hj & Ej); [lia|].
      apply (L1 j); [lia|]. rewrite <- Ej. exact Hx.
    + destruct (S3 k) as (j & Hj & Ej); [lia|].
      rewrite Ej, F2 in Hx by lia.
      apply (G1 j); [lia|exact Hx].
  - fold n in Hsub.
    destruct (in_tree_inside _ _ _ _ _ _ Hsub) as [[B1 B2] _].
    apply (split_ok_agree l2).
    + intros k Hk. apply F3. lia.
    + apply (IH l1 low (n - 1) (Z.rem (dim + 1) Dim)); auto; lia.
  - fold n in Hsub.
    apply (IH l2 (n + 1) high (Z.rem (dim + 1) Dim)); auto; lia.
Qed.
End TreeFacts.

(** ** The search never exhausts its budget *)

Section SearchFacts.
Variable Dim : Z.
Implicit Types (points : list (Point Dim)) (query : Point Dim).

(** One step through the body of [nearestIndex] run on the budget [f']:
    [H] is the run on the smaller budget, [Hr] says it did not exhaust it. *)
Ltac search_step IH H Hr :=
  lazymatch goal with
  | |- (if ?c then _ else _) ≫= _ = _ => destruct c
  | |- (if ?c then _ else _) = _ => destruct c
  | |- nearestIndex _ ?f' ?p ?q ?l ?h ?d ≫= _ = _ =>
      rewrite (IH f' l h d _ eq_refl);
      [ | let C := fresh in
          intros C; rewrite C, bind_Err in H; congruence
        | lia ];
      lazymatch goal with
      | |- ?m ≫= _ = _ => destruct m; rewrite ?bind_Ok, ?bind_Err in H |- *
      end
  | |- ?m ≫= _ = _ => destruct m; rewrite ?bind_Ok, ?bind_Err in H |- *
  end.

Lemma nearestIndex_fuel_mono points query :
  forall fuel fuel' low high dim r,
    nearestIndex Dim fuel points query low high dim = r ->
    r <> Err OutOfFuel -> (fuel <= fuel')%nat ->
    nearestIndex Dim fuel' points query low high dim = r.
Proof.
  induction fuel as [|fuel IH]; intros [|fuel'] low high dim r H Hr Hle;
    try lia; try (simpl in H; congruence).
  cbn [nearestIndex] in *.
  destruct (low >? high); [exact H|].
  repeat search_step IH H Hr; exact H.
Qed.
Lemma vector_at_not_fuel {A} (v : list A) i : vector_at v i <> Err OutOfFuel.
Proof. unfold vector_at. destruct (at_ v i); discriminate. Qed.

Lemma Point_at_not_fuel (p : Point Dim) d : Point_at Dim p d <> Err OutOfFuel.
Proof. unfold Point_at. destruct (_ && _); discriminate. Qed.

Lemma smallerDimVal_not_fuel (a b : Point Dim) d :
  smallerDimVal Dim a b d <> Err OutOfFuel.
Proof.
  unfold smallerDimVal, smallerDimVal_run.
  destruct (_ || _); simpl; [discriminate|].
  destruct (Point_at Dim a d) as [x|e] eqn:Ea; simpl;
    [|intros C; apply (Point_at_not_fuel a d); congruence].
  destruct (Point_at Dim b d) as [y|e] eqn:Eb; simpl;
    [|intros C; apply (Point_at_not_fuel b d); congruence].
  destruct (x <? y); [discriminate|]. destruct (x =? y); discriminate.
Qed.

(** One step through the body of [nearestIndex] towards "the budget was
    not exhausted"; [IHl] and [IHr] say so for the two child ranges. *)
Ltac fuel_step IHl IHr :=
  lazymatch goal with
  | |- (if ?c then _ else _) ≫= _ <> _ => destruct c
  | |- (if ?c then _ else _) <> _ => destruct c
  | |- ?m ≫= _ <> _ =>
      let E := fresh "E" in
      let e := fresh "e" in
      destruct m as [?|e] eqn:E;
      [ rewrite bind_Ok
      | rewrite bind_Err; destruct e; try discriminate; exfalso;
        first [ exact (vector_at_not_fuel _ _ E)
              | exact (Point_at_not_fuel _ _ E)
              | exact (smallerDimVal_not_fuel _ _ _ E)
              | exact (IHl eq_refl) | exact (IHr eq_refl) ] ]
  end.

(** A budget above the size of the range is enough. *)
Lemma nearestIndex_enough_fuel points query : forall fuel low high dim,
  Z.max 0 (high - low + 1) < Z.of_nat fuel ->
  nearestIndex Dim fuel points query low high dim <> Err OutOfFuel.
Proof.
  induction fuel as [|fuel IH]; intros low high dim Hfuel; [lia|].
  cbn [nearestIndex]. destruct (Z.gtb_spec low high) as [Hgt|Hle];
    [discriminate|].
  assert (IHl := IH low ((low + high) ÷ 2 - 1) (Z.rem (dim + 1) Dim)
                   ltac:(qlia)).
  assert (IHr := IH ((low + high) ÷ 2 + 1) high (Z.rem (dim + 1) Dim)
                   ltac:(qlia)).
  repeat fuel_step IHl IHr; discriminate.
Qed.
End SearchFacts.

(** * The claims about the KD-tree *)

Section Claims.
Variable Dim : Z.
Hypothesis Dim_pos : 0 < Dim.
Implicit Types (list newPoints points : list (Point Dim)).

Lemma KDTree_spec newPoints fuel :
  (length newPoints < fuel)%nat ->
  exists points,
    KDTree Dim fuel newPoints = Ok points
    /\ newPoints ≡ₚ points
    /\ (forall l h d,
          in_tree Dim 0 (Z.of_nat (length newPoints) - 1) 0 l h d ->
          split_ok Dim points l h d).
Proof.
  intros Hfuel. unfold KDTree.
  destruct (Z.eqb_spec (Z.of_nat (length newPoints)) 0) as [Hz|Hnz].
  { destruct newPoints; [|simpl in Hz; lia].
    exists []. split; [reflexivity|]. split; [reflexivity|].
    intros l h d Ht. apply split_ok_small.
    eapply in_tree_small; [exact Ht|simpl; lia]. }
  cbn zeta.
  set (hi := Z.of_nat (length newPoints) - 1).
  destruct (construct_reorders Dim Dim_pos fuel newPoints 0 hi ((0 + hi) ÷ 2) 0)
    as (points & E & R); try (subst hi; lia); try (subst hi; qlia).
  exists points. split; [exact E|]. split; [apply R|].
  apply (construct_inv Dim Dim_pos fuel newPoints 0 hi 0 points);
    try (subst hi; lia). exact E.
Qed.

(** C2.  After the constructor returns, the member vector [points] is a
    permutation of the input vector: construction neither duplicates nor
    drops a point. *)
Theorem KDTree_permutation newPoints fuel :
  (length newPoints < fuel)%nat ->
  exists points,
    KDTree Dim fuel newPoints = Ok points /\ newPoints ≡ₚ points.
Proof.
  intros Hfuel. destruct (KDTree_spec newPoints fuel Hfuel) as (p & E & P & _).
  exists p. split; assumption.
Qed.

(** C3.  After construction, for every range [low, high] with dimension [d]
    visited by the recursive split started at [0, n-1] with dimension 0,
    with [m] the midpoint of the range: every point of the range at an
    index below [m] has coordinate [d] at most that of [points[m]] and is
    not preceded by [points[m]] in the tie-broken order, and every point at
    an index above [m] has coordinate [d] at least that of [points[m]] and
    does not precede it. *)
Theorem KDTree_split_invariant newPoints fuel :
  (length newPoints < fuel)%nat ->
  exists points,
    KDTree Dim fuel newPoints = Ok points
    /\ forall low high d,
         in_tree Dim 0 (Z.of_nat (length newPoints) - 1) 0 low high d ->
         low <= high ->
         exists pm,
           at_ points ((low + high) ÷ 2) = Some pm
           /\ (forall i, low <= i < (low + high) ÷ 2 ->
                 exists p, at_ points i = Some p
                   /\ coord Dim p d <= coord Dim pm d
                   /\ smallerDimVal Dim pm p d = Ok false)
           /\ (forall i, (low + high) ÷ 2 < i <= high ->
                 exists p, at_ points i = Some p
                   /\ coord Dim pm d <= coord Dim p d
                   /\ smallerDimVal Dim p pm d = Ok false).
Proof.
  intros Hfuel.
  destruct (KDTree_spec newPoints fuel Hfuel) as (points & E & P & Inv).
  exists points. split; [exact E|].
  intros low high d Ht Hle.
  destruct (in_tree_inside Dim Dim_pos _ _ _ _ _ _ Ht) as [[B1 B2] Vd].
  specialize (Vd ltac:(lia)).
  assert (Len : length points = length newPoints)
    by (symmetry; apply Permutation_length, P).
  destruct (at_in_range points ((low + high) ÷ 2)) as [pm Hpm]; [qlia|].
  exists pm. split; [exact Hpm|].
  split; intros i Hi;
    (destruct (at_in_range points i) as [p Hp]; [qlia|]);
    exists p; (split; [exact Hp|]);
    destruct (Inv low high d Ht pm Hpm i p ltac:(qlia) Hp) as [Lo Hi'].
  - specialize (Lo ltac:(lia)). split.
    + apply dimLt_false_coord, Lo.
    + rewrite smallerDimVal_valid by exact Vd. f_equal. exact Lo.
  - specialize (Hi' ltac:(lia)). split.
    + apply dimLt_false_coord, Hi'.
    + rewrite smallerDimVal_valid by exact Vd. f_equal. exact Hi'.
Qed.

(** C4.  With [low <= pivotIndex <= high] inside the vector and a valid
    dimension, [partition] returns an index [r] in [low, high]; the element
    that was at [pivotIndex] is now at [r]; every element now in
    [low, r-1] precedes it under [smallerDimVal] at [dim], and no element
    now in [r+1, high] does. *)
Theorem partition_correct list low high pivotIndex dim :
  0 <= dim < Dim ->
  0 <= low -> low <= pivotIndex <= high -> high < Z.of_nat (length list) ->
  exists list' r pivotValue,
    partition Dim list low high pivotIndex dim = Ok (list', r)
    /\ low <= r <= high
    /\ at_ list pivotIndex = Some pivotValue
    /\ at_ list' r = Some pivotValue
    /\ (forall k, low <= k <= r - 1 ->
          exists x, at_ list' k = Some x
            /\ smallerDimVal Dim x pivotValue dim = Ok true)
    /\ (forall k, r + 1 <= k <= high ->
          exists x, at_ list' k = Some x
            /\ smallerDimVal Dim x pivotValue dim = Ok false).
Proof.
  intros Hd Hlow Hp Hhigh.
  destruct (at_in_range list pivotIndex) as [pivot Hpiv]; [lia|].
  destruct (partition_spec Dim list low high pivotIndex dim pivot
              Hd Hlow Hp Hhigh Hpiv) as (l' & r & E & Hr & R & Hpr & L & G).
  pose proof (reorders_length _ _ _ _ R) as Len.
  exists l', r, pivot. repeat (split; [assumption || lia|]).
  split; intros k Hk;
    (destruct (at_in_range l' k) as [x Hx]; [lia|]);
    exists x; (split; [exact Hx|]);
    rewrite smallerDimVal_valid by exact Hd; f_equal.
  - apply (L k); [lia|exact Hx].
  - apply (G k); [lia|exact Hx].
Qed.

(** C9.  With [low], [high] and [n] inside the vector and [n] inside the
    range, [partition], [select] and [construct] return a vector that is a
    permutation of [list] and agrees with [list] at every index outside
    [low, high]; for [construct] an empty or one-element range ([low >=
    high]) needs no condition on [n]. *)
Theorem frame_outside_range fuel list low high n dim :
  0 <= dim < Dim ->
  0 <= low -> high < Z.of_nat (length list) ->
  Z.max 0 (high - low + 1) < Z.of_nat fuel ->
  (low <= n <= high ->
     exists list' r,
       partition Dim list low high n dim = Ok (list', r)
       /\ list ≡ₚ list'
       /\ forall i, ~ (low <= i <= high) -> at_ list' i = at_ list i)
  /\ (low <= n <= high ->
        exists list',
          select Dim fuel list low high n dim = Ok list'
          /\ list ≡ₚ list'
          /\ forall i, ~ (low <= i <= high) -> at_ list' i = at_ list i)
  /\ ((low < high -> low <= n <= high) ->
        exists list',
          construct Dim fuel list low high n dim = Ok list'
          /\ list ≡ₚ list'
          /\ forall i, ~ (low <= i <= high) -> at_ list' i = at_ list i).
Proof.
  intros Hd Hlow Hhigh Hfuel. split; [|split].
  - intros Hn. destruct (at_in_range list n) as [pivot Hpiv]; [lia|].
    destruct (partition_spec Dim list low high n dim pivot
                Hd Hlow Hn Hhigh Hpiv) as (l' & r & E & _ & (P & F & _) & _).
    exists l', r. auto.
  - intros Hn.
    destruct (select_spec Dim dim Hd fuel list low high n Hlow Hn Hhigh)
      as (l' & pm & E & (P & F & _) & _); [lia|].
    exists l'. auto.
  - intros Hn.
    destruct (construct_reorders Dim Dim_pos fuel list low high n dim
                Hd Hlow Hhigh Hn Hfuel) as (l' & E & (P & F & _)).
    exists l'. auto.
Qed.

(** C8.  Construction terminates on every input vector: any budget above
    the number of points yields the same built tree.  The search terminates
    on every vector, query and range: any budget above the size of the
    range yields the same result, which is not [OutOfFuel]. *)
Theorem construction_and_search_terminate :
  (forall newPoints,
     exists points, forall fuel,
       (length newPoints < fuel)%nat ->
       KDTree Dim fuel newPoints = Ok points)
  /\ (forall points query low high dim,
        exists r, r <> Err OutOfFuel /\ forall fuel,
          Z.max 0 (high - low + 1) < Z.of_nat fuel ->
          nearestIndex Dim fuel points query low high dim = r).
Proof.
  split.
  - intros newPoints.
    destruct (KDTree_spec newPoints (S (length newPoints)) ltac:(lia))
      as (points & E & _).
    exists points. intros fuel Hfuel.
    unfold KDTree in *.
    destruct (Z.of_nat (length newPoints) =? 0); [exact E|].
    cbn zeta in *.
    apply (construct_fuel_mono Dim (S (length newPoints))); [exact E|lia].
  - intros points query low high dim.
    set (f0 := S (Z.to_nat (Z.max 0 (high - low + 1)))).
    exists (nearestIndex Dim f0 points query low high dim).
    assert (Hne : nearestIndex Dim f0 points query low high dim <> Err OutOfFuel)
      by (apply nearestIndex_enough_fuel; subst f0; lia).
    split; [exact Hne|].
    intros fuel Hfuel.
    apply (nearestIndex_fuel_mono Dim points query f0);
      [reflexivity|exact Hne|subst f0; lia].
Qed.
End Claims.

(** ** The defects of the search and of the comparison, on concrete inputs *)

(** C1.  [findNearestNeighbor] does not always return the nearest point.  On
    the tree built from (0,100,0), (5,0,0), (6,10,0) and the query (4,10,0)
    no read leaves the vector and the answer is (5,0,0), at squared distance
    101, although (6,10,0) is in the tree at squared distance 4: after the
    median replaced the best of the left subtree, [currentBest >=
    medianIndex] sends the second descent into the left subtree again and the
    right subtree is never visited. *)
Theorem findNearestNeighbor_misses_nearer_point :
  KDTree 3 4 three_points = Ok three_points
  /\ findNearestNeighbor 3 4 three_points (Point3 4 10 0) = Ok (Point3 5 0 0)
  /\ Point3 6 10 0 ∈ three_points
  /\ distanceSquared 3 (Point3 4 10 0) (Point3 6 10 0) = 4
  /\ distanceSquared 3 (Point3 4 10 0) (Point3 5 0 0) = 101.
Proof.
  split; [vm_compute; reflexivity|].
  split; [vm_compute; reflexivity|].
  split; [|split; vm_compute; reflexivity].
  unfold three_points. apply list_elem_of_In. simpl. auto.
Qed.

(** C5.  On the tree built from no points there is no empty-tree check:
    [nearestIndex] returns the sentinel 0 and [findNearestNeighbor] reads
    [points[0]] of the empty vector. *)
Theorem findNearestNeighbor_empty_tree_reads_out_of_range :
  forall (fuel : nat) (query : Point 3),
    KDTree 3 (S fuel) [] = Ok []
    /\ nearestIndex 3 (S fuel) [] query 0 (-1) 0 = Ok 0
    /\ findNearestNeighbor 3 (S fuel) [] query = Err (VectorOutOfRange 0).
Proof. intros fuel query. repeat split. Qed.

(** C6.  The sentinel is dereferenced.  On the tree built from the single
    point (1,2,3) and the query (5,5,5) the descent into the empty right
    range returns the sentinel 1 and [points[1]] is read, outside the vector
    of one point; on the tree of the three primary colours and the query
    (200,50,10) the read is [points[3]]. *)
Theorem nearestIndex_dereferences_sentinel :
  KDTree 3 2 [Point3 1 2 3] = Ok [Point3 1 2 3]
  /\ nearestIndex 3 1 [Point3 1 2 3] (Point3 5 5 5) 1 0 1 = Ok 1
  /\ findNearestNeighbor 3 2 [Point3 1 2 3] (Point3 5 5 5)
     = Err (VectorOutOfRange 1)
  /\ (points ← KDTree 3 4 [Point3 255 0 0; Point3 0 255 0; Point3 0 0 255];
      findNearestNeighbor 3 4 points (Point3 200 50 10))
     = Err (VectorOutOfRange 3).
Proof. repeat split; vm_compute; reflexivity. Qed.

(** For a dimension at or above [Dim], [smallerDimVal] prints its message and
    returns false; no coordinate is read. *)
Lemma smallerDimVal_run_above (Dim : Z) (a b : Point Dim) (dim : Z) :
  Dim <= dim ->
  smallerDimVal_run Dim a b dim = ([smallerDimVal_msg], Ok false).
Proof.
  intros H. unfold smallerDimVal_run.
  destruct (Z.geb_spec dim Dim); [reflexivity|lia].
Qed.

(** C7.  A negative dimension passes the guard, which tests [curDim >= Dim]
    twice and never [curDim < 0]: nothing is printed and the coordinate at
    the invalid dimension is read. *)
Theorem smallerDimVal_negative_dimension_is_read :
  forall a b : Point 3,
    smallerDimVal_run 3 a b (-1) = ([], Err (CoordOutOfRange (-1))).
Proof. intros a b. reflexivity. Qed.

(** ** The theorems at a concrete tree *)

Lemma KDTree_permutation_witness :
  0 < 3 /\ (length five_points < 6)%nat
  /\ exists points,
       KDTree 3 6 five_points = Ok points /\ five_points ≡ₚ points.
Proof.
  split; [lia|]. split; [simpl; lia|].
  apply (KDTree_permutation 3 ltac:(lia) five_points 6). simpl; lia.
Defined.

Lemma KDTree_split_invariant_witness :
  0 < 3 /\ (length five_points < 6)%nat
  /\ exists points pm,
       KDTree 3 6 five_points = Ok points
       /\ at_ points 2 = Some pm
       /\ (forall i, 0 <= i < 2 ->
             exists p, at_ points i = Some p
               /\ coord 3 p 0 <= coord 3 pm 0
               /\ smallerDimVal 3 pm p 0 = Ok false)
       /\ (forall i, 2 < i <= 4 ->
             exists p, at_ points i = Some p
               /\ coord 3 pm 0 <= coord 3 p 0
               /\ smallerDimVal 3 p pm 0 = Ok false).
Proof.
  split; [lia|]. split; [simpl; lia|].
  destruct (KDTree_split_invariant 3 ltac:(lia) five_points 6 ltac:(simpl; lia))
    as (points & E & Inv).
  destruct (Inv 0 4 0 (in_tree_here 3 0 4 0) ltac:(lia)) as (pm & Hpm & L & G).
  exists points, pm. repeat split; assumption.
Defined.

Lemma partition_correct_witness :
  0 < 3 /\ 0 <= 0 < 3 /\ 0 <= 0 /\ 0 <= 2 <= 4
  /\ 4 < Z.of_nat (length five_points)
  /\ exists list' r pivotValue,
       partition 3 five_points 0 4 2 0 = Ok (list', r)
       /\ 0 <= r <= 4
       /\ at_ five_points 2 = Some pivotValue
       /\ at_ list' r = Some pivotValue
       /\ (forall k, 0 <= k <= r - 1 ->
             exists x, at_ list' k = Some x
               /\ smallerDimVal 3 x pivotValue 0 = Ok true)
       /\ (forall k, r + 1 <= k <= 4 ->
             exists x, at_ list' k = Some x
               /\ smallerDimVal 3 x pivotValue 0 = Ok false).
Proof.
  split; [lia|]. split; [lia|]. split; [lia|]. split; [lia|].
  split; [simpl; lia|].
  apply (partition_correct 3 five_points 0 4 2 0); simpl; lia.
Defined.

Lemma frame_outside_range_witness :
  0 < 3 /\ 0 <= 1 < 3 /\ 0 <= 1 /\ 3 < Z.of_nat (length five_points)
  /\ Z.max 0 (3 - 1 + 1) < Z.of_nat 4
  /\ (exists list' r,
        partition 3 five_points 1 3 2 1 = Ok (list', r)
        /\ five_points ≡ₚ list'
        /\ forall i, ~ (1 <= i <= 3) -> at_ list' i = at_ five_points i)
  /\ (exists list',
        select 3 4 five_points 1 3 2 1 = Ok list'
        /\ five_points ≡ₚ list'
        /\ forall i, ~ (1 <= i <= 3) -> at_ list' i = at_ five_points i)
  /\ (exists list',
        construct 3 4 five_points 1 3 2 1 = Ok list'
        /\ five_points ≡ₚ list'
        /\ forall i, ~ (1 <= i <= 3) -> at_ list' i = at_ five_points i).
Proof.
  split; [lia|]. split; [lia|]. split; [lia|]. split; [simpl; lia|].
  split; [simpl; lia|].
  destruct (frame_outside_range 3 ltac:(lia) 4 five_points 1 3 2 1
              ltac:(lia) ltac:(lia) ltac:(simpl; lia) ltac:(simpl; lia))
    as (Hp & Hs & Hc).
  split; [apply Hp; lia|]. split; [apply Hs; lia|apply Hc; lia].
Defined.

(** The frame needs [n] inside the range, not only inside the vector.  With
    [n = 0] below the range [1, 3] the first swap of [partition] exchanges
    [list[0]] and [list[3]]: [partition], [select] and [construct] all
    return, and the element at index 0, outside the range, has changed. *)
Lemma frame_broken_by_index_outside_range :
  (0 <= 0 < 3 /\ 0 <= 1 /\ 3 < Z.of_nat (length five_points)
   /\ 0 <= 0 < Z.of_nat (length five_points))
  /\ (exists list' r,
        partition 3 five_points 1 3 0 0 = Ok (list', r)
        /\ at_ list' 0 <> at_ five_points 0)
  /\ (exists list',
        select 3 9 five_points 1 3 0 0 = Ok list'
        /\ at_ list' 0 <> at_ five_points 0)
  /\ (exists list',
        construct 3 9 five_points 1 3 0 0 = Ok list'
        /\ at_ list' 0 <> at_ five_points 0).
Proof.
  split; [simpl; lia|]. split; [|split].
  - eexists _, _. split; [reflexivity|vm_compute; discriminate].
  - eexists. split; [reflexivity|vm_compute; discriminate].
  - eexists. split; [reflexivity|vm_compute; discriminate].
Qed.

Lemma construction_and_search_terminate_witness :
  0 < 3
  /\ (exists points, forall fuel,
        (length five_points < fuel)%nat ->
        KDTree 3 fuel five_points = Ok points)
  /\ (exists r, r <> Err OutOfFuel /\ forall fuel,
        Z.max 0 (4 - 0 + 1) < Z.of_nat fuel ->
        nearestIndex 3 fuel five_points (Point3 4 4 4) 0 4 0 = r).
Proof.
  split; [lia|].
  destruct (construction_and_search_terminate 3 ltac:(lia)) as [Hc Hs].
  split; [apply Hc|apply Hs].
Defined.

(** * The tile mapper *)

Lemma findNearestNeighbor_member Dim fuel (points : list (Point Dim)) query p :
  findNearestNeighbor Dim fuel points query = Ok p -> p ∈ points.
Proof.
  unfold findNearestNeighbor.
  destruct (nearestIndex Dim fuel points query 0 _ 0) as [i|e];
    [rewrite bind_Ok|discriminate].
  intros H. apply vector_at_Ok_inv in H. eapply at_elem_of, H.
Qed.

Lemma regions_NoDup rows columns : NoDup (regions rows columns).
Proof.
  unfold regions, range. apply (NoDup_bind (fun i => pair i <$> seqZ 0 columns)).
  - intros i1 i2 k _ _ H1 H2.
    apply list_elem_of_fmap in H1 as (j1 & -> & _).
    apply list_elem_of_fmap in H2 as (j2 & E & _). congruence.
  - intros i _. apply NoDup_fmap; [|apply NoDup_seqZ].
    intros j1 j2 E. congruence.
  - apply NoDup_seqZ.
Qed.

Lemma elem_of_regions rows columns i j :
  (i, j) ∈ regions rows columns <-> 0 <= i < rows /\ 0 <= j < columns.
Proof.
  unfold regions, range.
  change (flat_map ?f ?l) with (l ≫= f).
  rewrite list_elem_of_bind. split.
  - intros (i' & Hj & Hi). apply list_elem_of_fmap in Hj as (j' & E & Hj).
    injection E as -> ->. apply elem_of_seqZ in Hi, Hj. lia.
  - intros [Hi Hj]. exists i. split.
    + apply list_elem_of_fmap. exists j. split; [reflexivity|].
      apply elem_of_seqZ. lia.
    + apply elem_of_seqZ. lia.
Qed.

Section MapTilesFacts.
Context {TileImage SourceImage : Type}.
Variable getAverageColor : TileImage -> RGBAPixel.
Variable default_TileImage : TileImage.
Variable getRows getColumns : SourceImage -> Z.
Variable getRegionColor : SourceImage -> Z -> Z -> RGBAPixel.

(** Every colour collected by the first loop is a key of the map. *)
Lemma tile_loop_keys theTiles : forall (m : gmap (list Z) TileImage) cs,
  (forall p, p ∈ cs -> is_Some (m !! coords p)) ->
  forall p, p ∈ (tile_loop getAverageColor theTiles m cs).2 ->
    is_Some ((tile_loop getAverageColor theTiles m cs).1 !! coords p).
Proof.
  induction theTiles as [|t rest IH]; intros m cs H p Hp; simpl in *; [auto|].
  apply IH; [|exact Hp]. intros p' Hp'.
  apply elem_of_app in Hp' as [Hin|Heq].
  - apply lookup_insert_is_Some'. right. apply H, Hin.
  - apply list_elem_of_singleton in Heq. subst p'.
    rewrite lookup_insert_eq. eauto.
Qed.

Section Loops.
Variable theSource : SourceImage.
Variable fuel : nat.
Variable regionColors : list (Point 3).
Variable tileImages0 : gmap (list Z) TileImage.
Hypothesis keys :
  forall p, p ∈ regionColors -> is_Some (tileImages0 !! coords p).

Abbreviation Answered :=
  (answered getRegionColor theSource fuel regionColors).
Abbreviation Good :=
  (good getRegionColor theSource fuel regionColors tileImages0).
Abbreviation body :=
  (region_body default_TileImage getRegionColor theSource fuel regionColors).

(** One region: the tree is queried once, the tile found is set, the map is
    left as it is. *)
Lemma region_body_spec i j st :
  tileImages st = tileImages0 -> Good (mosaic st) -> Answered i j ->
  exists st',
    body i st j = Ok st'
    /\ tileImages st' = tileImages0
    /\ Good (mosaic st')
    /\ queried st' = queried st ++ [(i, j)]
    /\ keeps (mosaic st) (mosaic st')
    /\ is_Some (canvas_tiles (mosaic st') !! (i, j)).
Proof.
  intros Hm Hg (nearest & Hn). unfold region_body. cbn zeta.
  rewrite Hn, bind_Ok.
  destruct (keys nearest (findNearestNeighbor_member _ _ _ _ _ Hn)) as [t Ht].
  unfold map_index. rewrite Hm, Ht.
  eexists. split; [reflexivity|]. unfold setTile. cbn.
  split; [reflexivity|]. split; [|split; [reflexivity|split]].
  - intros k t' Hk. simpl in Hk.
    apply lookup_insert_Some in Hk as [[<- <-]|[_ Hk]].
    + exists nearest. split; [exact Hn|exact Ht].
    + apply (Hg k t' Hk).
  - intros k Hk. simpl. apply lookup_insert_is_Some'. right. exact Hk.
  - simpl. rewrite lookup_insert_eq. eauto.
Qed.

(** The inner loop, over the columns [l] of the row [i]. *)
Lemma column_loop_spec i : forall l st,
  tileImages st = tileImages0 -> Good (mosaic st) ->
  (forall j, j ∈ l -> Answered i j) ->
  exists st',
    foldM (body i) l st = Ok st'
    /\ tileImages st' = tileImages0
    /\ Good (mosaic st')
    /\ queried st' = queried st ++ map (pair i) l
    /\ keeps (mosaic st) (mosaic st')
    /\ (forall j, j ∈ l -> is_Some (canvas_tiles (mosaic st') !! (i, j))).
Proof.
  induction l as [|j l IH]; intros st Hm Hg Ha.
  - exists st. simpl. rewrite app_nil_r. repeat split; auto.
    + intros k Hk. exact Hk.
    + intros j Hj. inversion Hj.
  - destruct (region_body_spec i j st Hm Hg)
      as (s1 & E1 & M1 & G1 & Q1 & K1 & S1).
    { apply Ha. left. }
    destruct (IH s1 M1 G1) as (s2 & E2 & M2 & G2 & Q2 & K2 & S2).
    { intros j' Hj'. apply Ha. right. exact Hj'. }
    exists s2. cbn [foldM]. rewrite E1, bind_Ok.
    split; [exact E2|]. split; [exact M2|]. split; [exact G2|].
    split; [rewrite Q2, Q1, <- app_assoc; reflexivity|].
    split; [intros k Hk; apply K2, K1, Hk|].
    intros j' Hj'. apply elem_of_cons in Hj' as [->|Hj'].
    + apply K2, S1.
    + apply S2, Hj'.
Qed.

(** The outer loop, over the rows [l]. *)
Lemma row_loop_spec columns : forall l st,
  tileImages st = tileImages0 -> Good (mosaic st) ->
  (forall i j, i ∈ l -> j ∈ columns -> Answered i j) ->
  exists st',
    foldM (fun st i => foldM (body i) columns st) l st = Ok st'
    /\ Good (mosaic st')
    /\ queried st'
       = queried st ++ flat_map (fun i => map (pair i) columns) l
    /\ keeps (mosaic st) (mosaic st')
    /\ (forall i j, i ∈ l -> j ∈ columns ->
          is_Some (canvas_tiles (mosaic st') !! (i, j)))
    /\ tileImages st' = tileImages0.
Proof.
  induction l as [|i l IH]; intros st Hm Hg Ha.
  - exists st. simpl. rewrite app_nil_r. repeat split; auto.
    + intros k Hk. exact Hk.
    + intros i j Hi. inversion Hi.
  - destruct (column_loop_spec i columns st Hm Hg)
      as (s1 & E1 & M1 & G1 & Q1 & K1 & S1).
    { intros j Hj. apply Ha; [left|exact Hj]. }
    destruct (IH s1 M1 G1) as (s2 & E2 & G2 & Q2 & K2 & S2 & M2).
    { intros i' j Hi' Hj. apply Ha; [right; exact Hi'|exact Hj]. }
    exists s2. cbn [foldM]. rewrite E1, bind_Ok.
    split; [exact E2|]. split; [exact G2|].
    split; [rewrite Q2, Q1, <- app_assoc; reflexivity|].
    split; [intros k Hk; apply K2, K1, Hk|]. split; [|exact M2].
    intros i' j Hi' Hj. apply elem_of_cons in Hi' as [->|Hi'].
    + apply K2, S1, Hj.
    + apply S2; assumption.
Qed.
End Loops.

(** The wiring of [mapTiles], for the runs in which every query of the tree
    returns a point: the tree is queried for every region exactly once, in
    the order of the loops, and the tile set at a region is the one the map
    holds for the point found for it. *)
Lemma mapTiles_wiring theSource theTiles :
  let tiles := tile_loop getAverageColor theTiles ∅ [] in
  let fuel := S (length tiles.2) in
  exists regionColors,
    KDTree 3 fuel tiles.2 = Ok regionColors
    /\ ((forall i j,
           0 <= i < getRows theSource -> 0 <= j < getColumns theSource ->
           answered getRegionColor theSource fuel regionColors i j) ->
        exists canvas,
          mapTiles getAverageColor default_TileImage getRows getColumns
            getRegionColor theSource theTiles
          = Ok (canvas, regions (getRows theSource) (getColumns theSource))
          /\ forall i j,
               0 <= i < getRows theSource -> 0 <= j < getColumns theSource ->
               exists t,
                 right_tile getRegionColor theSource fuel regionColors
                   tiles.1 (i, j) t
                 /\ canvas_tiles canvas !! (i, j) = Some t).
Proof.
  intros tiles fuel.
  destruct (KDTree_spec 3 ltac:(lia) tiles.2 fuel ltac:(subst fuel; lia))
    as (regionColors & E & P & _).
  exists regionColors. split; [exact E|]. intros Ha.
  assert (keys : forall p, p ∈ regionColors -> is_Some (tiles.1 !! coords p)).
  { intros p Hp. apply (tile_loop_keys theTiles ∅ []).
    - intros p' Hp'. inversion Hp'.
    - fold tiles. rewrite P. exact Hp. }
  destruct (row_loop_spec theSource fuel regionColors tiles.1 keys
              (range (getColumns theSource)) (range (getRows theSource))
              {| mosaic := new_MosaicCanvas TileImage (getRows theSource)
                             (getColumns theSource);
                 tileImages := tiles.1; queried := [] |})
    as (st & Est & G & Q & _ & S & _).
  { reflexivity. }
  { intros k t Hk. simpl in Hk. rewrite lookup_empty in Hk. discriminate. }
  { intros i j Hi Hj. apply elem_of_seqZ in Hi, Hj. apply Ha; lia. }
  exists (mosaic st). split.
  - unfold mapTiles. fold tiles. destruct tiles as [tileImages0 tileColors].
    cbn zeta. cbn [fst snd] in *. subst fuel. cbn [snd] in *.
    rewrite E, bind_Ok. cbn [canvas_rows canvas_columns new_MosaicCanvas].
    rewrite Est, bind_Ok. rewrite Q. reflexivity.
  - intros i j Hi Hj.
    destruct (S i j) as [t Ht]; [apply elem_of_seqZ; lia..|].
    exists t. split; [apply (G _ _ Ht)|exact Ht].
Qed.
End MapTilesFacts.

(** ** The tile mapper on concrete inputs *)

(** The two outcomes of the model on a single tile of colour (1,2,3).  With
    a source image whose only region has colour (5,5,5), the query made for
    the region reads [points[1]] of the tree of one point and the run of the
    model ends there; with a region of colour (0,0,0) the same tile list
    gives the canvas holding the tile at the region, after one query. *)
Lemma mapTiles_single_tile :
  mapTiles one_colour 0%nat (fun _ => 1) (fun _ => 1) grey_region
    tt [7%nat] = Err (VectorOutOfRange 1)
  /\ exists canvas,
       mapTiles one_colour 0%nat (fun _ => 1) (fun _ => 1)
         black_region tt [7%nat] = Ok (canvas, [(0, 0)])
       /\ canvas_tiles canvas !! (0, 0) = Some 7%nat.
Proof.
  split; [vm_compute; reflexivity|].
  eexists. split; [vm_compute; reflexivity|]. vm_compute. reflexivity.
Qed.

(** * Further properties of the code *)

(** ** Points, the order and the distance *)

Lemma Point_eq {Dim : Z} (a b : Point Dim) : coords a = coords b -> a = b.
Proof.
  destruct a as [ca la], b as [cb lb]. simpl. intros ->.
  f_equal. apply proof_irrel.
Qed.

Lemma lex_ltb_total a : forall b,
  lex_ltb a b = false -> lex_ltb b a = false -> a = b.
Proof.
  induction a as [|x a IH]; intros [|y b]; simpl; try congruence.
  destruct (Z.ltb_spec x y); [discriminate|].
  destruct (Z.ltb_spec y x); [destruct (Z.eqb_spec x y); [lia|discriminate]|].
  assert (x = y) by lia. subst y. rewrite Z.eqb_refl.
  intros H1 H2. f_equal. apply IH; assumption.
Qed.

Lemma lex_eqb_refl a : lex_eqb a a = true.
Proof. apply lex_eqb_eq. reflexivity. Qed.

Section OrderFacts.
Variable Dim : Z.
Implicit Types (a b c : Point Dim) (d : Z).

Lemma Point_eqb_eq a b : Point_eqb Dim a b = true <-> a = b.
Proof.
  unfold Point_eqb. rewrite lex_eqb_eq. split; [apply Point_eq|congruence].
Qed.

Lemma Point_ltb_total a b :
  Point_ltb Dim a b = false -> Point_ltb Dim b a = false -> a = b.
Proof. intros H1 H2. apply Point_eq, lex_ltb_total; assumption. Qed.

Lemma dimLt_total a b d :
  dimLt Dim a b d = false -> dimLt Dim b a d = false -> a = b.
Proof.
  unfold dimLt. intros H1 H2.
  apply orb_false_iff in H1 as [L1 E1]. apply orb_false_iff in H2 as [L2 E2].
  apply Z.ltb_ge in L1, L2.
  assert (E : coord Dim a d = coord Dim b d) by lia.
  rewrite E, Z.eqb_refl in *. simpl in *. apply Point_ltb_total; assumption.
Qed.

(** X1.  Along a valid dimension [smallerDimVal] is a strict total order on
    points: no point precedes itself, precedence is transitive, and of two
    different points one precedes the other. *)
Theorem smallerDimVal_strict_total_order d :
  0 <= d < Dim ->
  (forall a, smallerDimVal Dim a a d = Ok false)
  /\ (forall a b c,
        smallerDimVal Dim a b d = Ok true ->
        smallerDimVal Dim b c d = Ok true ->
        smallerDimVal Dim a c d = Ok true)
  /\ (forall a b,
        a <> b ->
        smallerDimVal Dim a b d = Ok true \/ smallerDimVal Dim b a d = Ok true).
Proof.
  intros Hd. split; [|split].
  - intros a. rewrite smallerDimVal_valid by exact Hd.
    rewrite dimLt_irrefl. reflexivity.
  - intros a b c. rewrite !smallerDimVal_valid by exact Hd.
    intros H1 H2. f_equal. injection H1 as H1. injection H2 as H2.
    eapply dimLt_trans; eassumption.
  - intros a b Hne. rewrite !smallerDimVal_valid by exact Hd.
    destruct (dimLt Dim a b d) eqn:E1; [left; reflexivity|].
    destruct (dimLt Dim b a d) eqn:E2; [right; reflexivity|].
    exfalso. apply Hne. eapply dimLt_total; eassumption.
Qed.

(** *** The squared distance *)

Lemma distance_fold_ge (f : Z -> Z) : forall l acc,
  acc <= fold_left (fun d i => let diff := f i in d + diff * diff) l acc.
Proof.
  induction l as [|i l IH]; intros acc; simpl; [lia|].
  etransitivity; [|apply IH]. nia.
Qed.

Lemma distance_fold_ext (f g : Z -> Z) : forall l acc,
  (forall i, i ∈ l -> f i * f i = g i * g i) ->
  fold_left (fun d i => let diff := f i in d + diff * diff) l acc
  = fold_left (fun d i => let diff := g i in d + diff * diff) l acc.
Proof.
  induction l as [|i l IH]; intros acc H; simpl; [reflexivity|].
  rewrite (H i) by left. apply IH. intros j Hj. apply H. right. exact Hj.
Qed.

Lemma distance_fold_zero (f : Z -> Z) : forall l acc,
  0 <= acc ->
  fold_left (fun d i => let diff := f i in d + diff * diff) l acc = 0 ->
  acc = 0 /\ forall i, i ∈ l -> f i = 0.
Proof.
  induction l as [|i l IH]; intros acc Hacc H; simpl in H.
  - split; [exact H|]. intros i Hi. inversion Hi.
  - destruct (IH (acc + f i * f i) ltac:(nia) H) as [H0 Hl].
    split; [nia|]. intros j Hj. apply elem_of_cons in Hj as [->|Hj]; [nia|].
    apply Hl, Hj.
Qed.

Lemma distanceSquared_nonneg a b : 0 <= distanceSquared Dim a b.
Proof. unfold distanceSquared. apply (distance_fold_ge _ _ 0). Qed.

Lemma distanceSquared_refl a : distanceSquared Dim a a = 0.
Proof.
  unfold distanceSquared.
  rewrite (distance_fold_ext _ (fun _ => 0)) by (intros; lia).
  induction (seqZ 0 Dim) as [|i l IH]; simpl; [reflexivity|exact IH].
Qed.

Lemma distanceSquared_zero a b : distanceSquared Dim a b = 0 -> a = b.
Proof.
  unfold distanceSquared. intros H.
  apply distance_fold_zero in H as [_ H]; [|lia].
  apply Point_eq. apply (nth_ext _ _ 0 0).
  - rewrite (coords_len a), (coords_len b). reflexivity.
  - intros n Hn. rewrite (coords_len a) in Hn.
    specialize (H (Z.of_nat n)). unfold coord in H.
    rewrite Nat2Z.id in H.
    assert (Z.of_nat n ∈ seqZ 0 Dim) by (apply elem_of_seqZ; lia).
    specialize (H ltac:(assumption)). lia.
Qed.

(** X2.  Where it is computed exactly, [distanceSquared] is never negative,
    is symmetric, and is zero exactly between a point and itself. *)
Theorem distanceSquared_metric a b :
  exact_distance Dim a b ->
  0 <= distanceSquared Dim a b
  /\ distanceSquared Dim a b = distanceSquared Dim b a
  /\ (distanceSquared Dim a b = 0 <-> a = b).
Proof.
  intros _. split; [apply distanceSquared_nonneg|]. split.
  - unfold distanceSquared. apply distance_fold_ext. intros i _. lia.
  - split; [apply distanceSquared_zero|].
    intros ->. apply distanceSquared_refl.
Qed.

(** *** The choice between two candidates *)

Lemma shouldReplace_spec (t c p : Point Dim) :
  shouldReplace Dim t c p = true <->
  c = p
  \/ distanceSquared Dim t p < distanceSquared Dim t c
  \/ (distanceSquared Dim t p = distanceSquared Dim t c
      /\ Point_ltb Dim p c = true).
Proof.
  unfold shouldReplace.
  destruct (Point_eqb Dim c p) eqn:E.
  - apply Point_eqb_eq in E. tauto.
  - assert (c <> p) by (intros ->; rewrite (proj2 (Point_eqb_eq p p)) in E; congruence).
    destruct (Z.ltb_spec (distanceSquared Dim t p) (distanceSquared Dim t c));
      [tauto|].
    destruct (Z.eqb_spec (distanceSquared Dim t p) (distanceSquared Dim t c)).
    + split; [tauto|]. intros [?|[?|[_ ?]]]; [contradiction|lia|assumption].
    + split; [discriminate|]. intros [?|[?|[? _]]]; [contradiction|lia|lia].
Qed.

(** The candidate kept after [shouldReplace] is at least as near as both. *)
Lemma shouldReplace_nearer (t c p : Point Dim) :
  let best := if shouldReplace Dim t c p then p else c in
  distanceSquared Dim t best <= distanceSquared Dim t c
  /\ distanceSquared Dim t best <= distanceSquared Dim t p.
Proof.
  cbn zeta. destruct (shouldReplace Dim t c p) eqn:E.
  - apply shouldReplace_spec in E as [->|[?|[? _]]]; lia.
  - split; [lia|].
    destruct (Z.ltb_spec (distanceSquared Dim t p) (distanceSquared Dim t c))
      as [Hlt|Hge]; [|exact Hge].
    assert (shouldReplace Dim t c p = true)
      by (apply shouldReplace_spec; auto).
    congruence.
Qed.

(** X3.  Where the two squared distances are computed exactly,
    [shouldReplace] picks a winner: the candidate it keeps is at least as
    near to the target as the other one, a candidate replaces itself, and
    between two different candidates exactly one replaces the other, whatever
    the order in which they are presented. *)
Theorem shouldReplace_total_choice (t c p : Point Dim) :
  exact_distance Dim t c -> exact_distance Dim t p ->
  (let best := if shouldReplace Dim t c p then p else c in
   distanceSquared Dim t best <= distanceSquared Dim t c
   /\ distanceSquared Dim t best <= distanceSquared Dim t p)
  /\ shouldReplace Dim t c c = true
  /\ (c <> p -> shouldReplace Dim t c p = negb (shouldReplace Dim t p c)).
Proof.
  intros _ _. split; [apply shouldReplace_nearer|]. split.
  - apply shouldReplace_spec. left. reflexivity.
  - intros Hne.
    destruct (shouldReplace Dim t c p) eqn:E1;
      destruct (shouldReplace Dim t p c) eqn:E2; try reflexivity; exfalso.
    + apply shouldReplace_spec in E1 as [?|[L1|[D1 L1]]]; [contradiction| |];
        apply shouldReplace_spec in E2 as [?|[L2|[D2 L2]]];
        try congruence; try lia.
      unfold Point_ltb in *.
      pose proof (lex_ltb_trans _ _ _ L1 L2) as T.
      rewrite lex_ltb_irrefl in T. discriminate.
    + destruct (Z.lt_trichotomy (distanceSquared Dim t p)
                  (distanceSquared Dim t c)) as [L|[D|L]].
      * assert (shouldReplace Dim t c p = true)
          by (apply shouldReplace_spec; auto). congruence.
      * destruct (Point_ltb Dim p c) eqn:L1.
        -- assert (shouldReplace Dim t c p = true)
             by (apply shouldReplace_spec; auto). congruence.
        -- destruct (Point_ltb Dim c p) eqn:L2.
           ++ assert (shouldReplace Dim t p c = true)
                by (apply shouldReplace_spec; right; right; split; [lia|auto]).
              congruence.
           ++ apply Hne. apply Point_ltb_total; assumption.
      * assert (shouldReplace Dim t p c = true)
          by (apply shouldReplace_spec; auto). congruence.
Qed.
End OrderFacts.

(** ** Partition and QuickSelect outside the claims *)

Section SelectMore.
Variable Dim : Z.
Implicit Types (list : list (Point Dim)) (low high n dim : Z).

Lemma smallerDimVal_above a b dim :
  Dim <= dim -> smallerDimVal Dim a b dim = Ok false.
Proof.
  intros H. unfold smallerDimVal. rewrite smallerDimVal_run_above by exact H.
  reflexivity.
Qed.

(** With every comparison answering false the scan moves nothing. *)
Lemma partition_loop_above pivot dim :
  Dim <= dim ->
  forall k list i s,
    0 <= i -> i + Z.of_nat k <= Z.of_nat (length list) ->
    partition_loop Dim k list pivot dim i s = Ok (list, s).
Proof.
  intros Hd. induction k as [|k IH]; intros list i s Hi Hlen; [reflexivity|].
  destruct (at_in_range list i) as [x Hx]; [lia|].
  cbn [partition_loop]. rewrite (vector_at_Ok _ _ _ Hx), bind_Ok.
  rewrite smallerDimVal_above by exact Hd. rewrite bind_Ok.
  apply IH; lia.
Qed.

(** X4.  With a dimension at or above [Dim] every comparison answers false,
    and [partition] degrades silently: whatever the points are, it returns
    [low] and moves the pivot there. *)
Theorem partition_dimension_too_large list low high pivotIndex dim :
  Dim <= dim ->
  0 <= low -> low <= pivotIndex <= high -> high < Z.of_nat (length list) ->
  exists list',
    partition Dim list low high pivotIndex dim = Ok (list', low)
    /\ at_ list' low = at_ list pivotIndex
    /\ list ≡ₚ list'
    /\ forall i, ~ (low <= i <= high) -> at_ list' i = at_ list i.
Proof.
  intros Hd Hlow Hp Hhigh.
  destruct (at_in_range list pivotIndex) as [pivot Hpiv]; [lia|].
  destruct (at_in_range list high) as [h Hh]; [lia|].
  destruct (swap_spec list pivotIndex high pivot h Hpiv Hh)
    as (l1 & E1 & E1p & E1h & E1k & P1).
  assert (Len1 : length l1 = length list)
    by (symmetry; apply Permutation_length, P1).
  destruct (at_in_range l1 low) as [z Hz]; [lia|].
  destruct (swap_spec l1 high low pivot z E1h Hz)
    as (l2 & E2 & E2h & E2l & E2k & P2).
  exists l2. unfold partition.
  rewrite (vector_at_Ok _ _ _ Hpiv), bind_Ok, E1, bind_Ok.
  rewrite (partition_loop_above pivot dim Hd) by lia.
  rewrite bind_Ok. cbn beta iota. rewrite E2, bind_Ok.
  split; [reflexivity|]. split; [congruence|].
  split; [etransitivity; eassumption|].
  intros i Hi. rewrite E2k, E1k by lia. reflexivity.
Qed.

(** X5.  The contract of [select]: with [low <= n <= high] inside the vector
    and a valid dimension, [select] returns a permutation of the vector in
    which the element at [n] is the one a sort of the range would put there:
    it precedes no element on its left and no element on its right precedes
    it. *)
Theorem select_places_order_statistic fuel list low high n dim :
  0 <= dim < Dim ->
  0 <= low -> low <= n <= high -> high < Z.of_nat (length list) ->
  high - low < Z.of_nat fuel ->
  exists list' pm,
    select Dim fuel list low high n dim = Ok list'
    /\ list ≡ₚ list'
    /\ at_ list' n = Some pm
    /\ (forall k, low <= k < n ->
          exists x, at_ list' k = Some x
            /\ smallerDimVal Dim pm x dim = Ok false)
    /\ (forall k, n < k <= high ->
          exists x, at_ list' k = Some x
            /\ smallerDimVal Dim x pm dim = Ok false).
Proof.
  intros Hd Hlow Hn Hhigh Hfuel.
  destruct (select_spec Dim dim Hd fuel list low high n Hlow Hn Hhigh Hfuel)
    as (l' & pm & E & R & Hpm & L & G).
  pose proof (reorders_length _ _ _ _ R) as Len.
  exists l', pm. split; [exact E|]. split; [apply R|]. split; [exact Hpm|].
  split; intros k Hk;
    (destruct (at_in_range l' k) as [x Hx]; [lia|]);
    exists x; (split; [exact Hx|]);
    rewrite smallerDimVal_valid by exact Hd; f_equal.
  - apply (L k); [lia|exact Hx].
  - apply (G k); [lia|exact Hx].
Qed.

(** X6.  [select] does not return when it is asked for an index below an
    empty range: with [high < low] and [n < low], all inside the vector,
    [partition] returns [low] and [select] calls itself on [low, low - 1]
    with the same [n], for ever.  No budget is enough. *)
Theorem select_below_empty_range_diverges dim : forall fuel list low high n,
  0 <= n < low -> 0 <= high < low -> low < Z.of_nat (length list) ->
  select Dim fuel list low high n dim = Err OutOfFuel.
Proof.
  induction fuel as [|fuel IH]; intros list low high n Hn Hhigh Hlow;
    [reflexivity|].
  cbn [select]. destruct (Z.eqb_spec low high); [lia|].
  destruct (at_in_range list n) as [pivot Hpiv]; [lia|].
  destruct (at_in_range list high) as [h Hh]; [lia|].
  destruct (swap_spec list n high pivot h Hpiv Hh)
    as (l1 & E1 & _ & E1h & _ & P1).
  assert (Len1 : length l1 = length list)
    by (symmetry; apply Permutation_length, P1).
  destruct (at_in_range l1 low) as [z Hz]; [lia|].
  destruct (swap_spec l1 high low pivot z E1h Hz)
    as (l2 & E2 & _ & _ & _ & P2).
  assert (Len2 : length l2 = length l1)
    by (symmetry; apply Permutation_length, P2).
  unfold partition.
  rewrite (vector_at_Ok _ _ _ Hpiv), bind_Ok, E1, bind_Ok.
  replace (Z.to_nat (high - low)) with 0%nat by lia.
  cbn [partition_loop]. rewrite bind_Ok. cbn beta iota.
  rewrite E2, !bind_Ok. cbn beta iota.
  destruct (Z.eqb_spec n low); [lia|].
  destruct (Z.ltb_spec n low); [|lia].
  apply IH; lia.
Qed.
End SelectMore.

Lemma partition_dimension_too_large_witness :
  3 <= 7 /\ 0 <= 0 /\ 0 <= 2 <= 4 /\ 4 < Z.of_nat (length five_points)
  /\ exists list',
       partition 3 five_points 0 4 2 7 = Ok (list', 0)
       /\ at_ list' 0 = at_ five_points 2
       /\ five_points ≡ₚ list'
       /\ forall i, ~ (0 <= i <= 4) -> at_ list' i = at_ five_points i.
Proof.
  split; [lia|]. split; [lia|]. split; [lia|]. split; [simpl; lia|].
  apply (partition_dimension_too_large 3 five_points 0 4 2 7); simpl; lia.
Defined.

Lemma select_places_order_statistic_witness :
  0 <= 1 < 3 /\ 0 <= 0 /\ 0 <= 3 <= 4 /\ 4 < Z.of_nat (length five_points)
  /\ 4 - 0 < Z.of_nat 5
  /\ exists list' pm,
       select 3 5 five_points 0 4 3 1 = Ok list'
       /\ five_points ≡ₚ list'
       /\ at_ list' 3 = Some pm
       /\ (forall k, 0 <= k < 3 ->
             exists x, at_ list' k = Some x
               /\ smallerDimVal 3 pm x 1 = Ok false)
       /\ (forall k, 3 < k <= 4 ->
             exists x, at_ list' k = Some x
               /\ smallerDimVal 3 x pm 1 = Ok false).
Proof.
  split; [lia|]. split; [lia|]. split; [lia|]. split; [simpl; lia|].
  split; [simpl; lia|].
  apply (select_places_order_statistic 3 5 five_points 0 4 3 1); simpl; lia.
Defined.

Lemma select_below_empty_range_diverges_witness :
  0 <= 0 < 2 /\ 0 <= 1 < 2 /\ 2 < Z.of_nat (length five_points)
  /\ select 3 9 five_points 2 1 0 0 = Err OutOfFuel.
Proof.
  split; [lia|]. split; [lia|]. split; [simpl; lia|].
  apply (select_below_empty_range_diverges 3 0 9 five_points 2 1 0);
    simpl; lia.
Defined.

Lemma smallerDimVal_strict_total_order_witness :
  0 <= 1 < 3
  /\ (forall a : Point 3, smallerDimVal 3 a a 1 = Ok false)
  /\ (forall a b c : Point 3,
        smallerDimVal 3 a b 1 = Ok true ->
        smallerDimVal 3 b c 1 = Ok true ->
        smallerDimVal 3 a c 1 = Ok true)
  /\ (forall a b : Point 3,
        a <> b ->
        smallerDimVal 3 a b 1 = Ok true \/ smallerDimVal 3 b a 1 = Ok true).
Proof.
  split; [lia|]. apply (smallerDimVal_strict_total_order 3 1). lia.
Defined.

(** ** The search: what it returns and where it stops *)

(** [m] either returns a value satisfying [X] or stops with the error [e0]. *)
Definition outcome {A : Type} (e0 : error) (X : A -> Prop) (m : result A)
  : Prop :=
  (exists a, m = Ok a /\ X a) \/ m = Err e0.

Lemma outcome_Ok {A} e0 (X : A -> Prop) a : X a -> outcome e0 X (Ok a).
Proof. intros H. left. eauto. Qed.

Lemma outcome_bind {A B} e0 (X : A -> Prop) (Y : B -> Prop) m
    (f : A -> result B) :
  outcome e0 X m -> (forall a, X a -> outcome e0 Y (f a)) ->
  outcome e0 Y (m ≫= f).
Proof.
  intros [(a & -> & Ha)| ->] Hf; [rewrite bind_Ok; auto|right; reflexivity].
Qed.

Lemma outcome_weaken {A} e0 (X Y : A -> Prop) m :
  outcome e0 X m -> (forall a, X a -> Y a) -> outcome e0 Y m.
Proof. intros [(a & -> & Ha)| ->] H; [left; eauto|right; reflexivity]. Qed.

Lemma outcome_vector_at {A} (v : list A) i :
  0 <= i <= Z.of_nat (length v) ->
  outcome (VectorOutOfRange (Z.of_nat (length v)))
    (fun x => at_ v i = Some x) (vector_at v i).
Proof.
  intros Hi. destruct (decide (i = Z.of_nat (length v))) as [->|Hne].
  - right. apply vector_at_Err. lia.
  - destruct (at_in_range v i) as [x Hx]; [lia|].
    left. exists x. split; [apply vector_at_Ok, Hx|exact Hx].
Qed.

Section SearchMore.
Variable Dim : Z.
Hypothesis Dim_pos : 0 < Dim.
Implicit Types (points : list (Point Dim)) (query : Point Dim).

Lemma Point_at_valid (p : Point Dim) d :
  0 <= d < Dim -> Point_at Dim p d = Ok (coord Dim p d).
Proof.
  intros Hd. unfold Point_at.
  destruct (Z.leb_spec 0 d); [|lia]. destruct (Z.ltb_spec d Dim); [|lia].
  reflexivity.
Qed.

(** On a range inside the vector [nearestIndex] either returns an index of
    the range or the sentinel one past it, or stops at the read of the
    element one past the end of the vector. *)
Lemma nearestIndex_outcome points query : forall fuel low high dim,
  0 <= dim < Dim -> 0 <= low -> high < Z.of_nat (length points) ->
  Z.max 0 (high - low + 1) < Z.of_nat fuel ->
  outcome (VectorOutOfRange (Z.of_nat (length points)))
    (fun r => low <= r <= Z.max low (high + 1)
              /\ (low <= high -> is_Some (at_ points r)))
    (nearestIndex Dim fuel points query low high dim).
Proof.
  induction fuel as [|fuel IH]; intros low high dim Hd Hlow Hhigh Hfuel; [lia|].
  cbn [nearestIndex]. destruct (Z.gtb_spec low high) as [Hgt|Hle].
  { apply outcome_Ok. split; [lia|]. intros; lia. }
  set (m := (low + high) ÷ 2).
  assert (Hm : low <= m <= high) by (subst m; qlia).
  pose proof (next_dim_valid Dim Dim_pos dim Hd) as Hd'.
  assert (Sub : forall b : bool,
    outcome (VectorOutOfRange (Z.of_nat (length points)))
      (fun r => low <= r <= high + 1)
      (if b then nearestIndex Dim fuel points query low (m - 1)
                  (Z.rem (dim + 1) Dim)
       else nearestIndex Dim fuel points query (m + 1) high
              (Z.rem (dim + 1) Dim))).
  { intros [|].
    - eapply outcome_weaken; [apply IH; [exact Hd'|lia|lia|lia]|].
      cbn beta. intros r [Hr _]. lia.
    - eapply outcome_weaken; [apply IH; [exact Hd'|lia|lia|lia]|].
      cbn beta. intros r [Hr _]. lia. }
  destruct (at_in_range points m) as [pm Hpm]; [lia|].
  rewrite (vector_at_Ok _ _ _ Hpm), !bind_Ok.
  rewrite smallerDimVal_valid by exact Hd. rewrite bind_Ok.
  eapply outcome_bind; [apply Sub|]. cbn beta. intros cb Hcb.
  eapply outcome_bind; [apply (outcome_vector_at points cb); lia|].
  cbn beta. intros pc Hpc. rewrite !bind_Ok.
  rewrite !Point_at_valid by exact Hd. rewrite !bind_Ok.
  set (cb' := if shouldReplace Dim query pc pm then m else cb).
  assert (Hcb' : low <= cb' <= high + 1 /\ is_Some (at_ points cb')).
  { subst cb'. destruct (shouldReplace Dim query pc pm); split; eauto; lia. }
  destruct Hcb' as [Rcb' [pc0 Hpc0]].
  rewrite (vector_at_Ok _ _ _ Hpc0), !bind_Ok.
  destruct (_ <=? _).
  - eapply outcome_bind; [apply (Sub (cb' >=? m))|]. cbn beta. intros pb Hpb.
    rewrite bind_Ok.
    eapply outcome_bind; [apply (outcome_vector_at points pb); lia|].
    cbn beta. intros pp Hpp. apply outcome_Ok.
    destruct (shouldReplace Dim query pc0 pp); split; eauto; lia.
  - apply outcome_Ok. split; eauto; lia.
Qed.

(** X7.  Whatever the points and the query, [findNearestNeighbor] either
    returns one of the points of the tree or stops at the read of
    [points[n]], the element one past the end of the [n] points; it reads no
    other index outside the vector and no coordinate outside [0, Dim). *)
Theorem findNearestNeighbor_answers_or_reads_one_past_end points query fuel :
  (length points < fuel)%nat ->
  (exists p, findNearestNeighbor Dim fuel points query = Ok p /\ p ∈ points)
  \/ findNearestNeighbor Dim fuel points query
     = Err (VectorOutOfRange (Z.of_nat (length points))).
Proof.
  intros Hfuel. unfold findNearestNeighbor.
  assert (O : outcome (VectorOutOfRange (Z.of_nat (length points)))
                (fun p => p ∈ points)
                (nearestIndex Dim fuel points query 0
                   (Z.of_nat (length points) - 1) 0 ≫= vector_at points)).
  { eapply outcome_bind.
    - apply (nearestIndex_outcome points query fuel 0
               (Z.of_nat (length points) - 1) 0); lia.
    - cbn beta. intros r [Hr _].
      eapply outcome_weaken; [apply (outcome_vector_at points r); lia|].
      cbn beta. intros p Hp. eapply at_elem_of, Hp. }
  exact O.
Qed.
End SearchMore.

Lemma findNearestNeighbor_answers_or_reads_one_past_end_witness :
  0 < 3 /\ (length five_points < 6)%nat
  /\ ((exists p, findNearestNeighbor 3 6 five_points (Point3 4 4 4) = Ok p
                 /\ p ∈ five_points)
      \/ findNearestNeighbor 3 6 five_points (Point3 4 4 4)
         = Err (VectorOutOfRange (Z.of_nat (length five_points)))).
Proof.
  split; [lia|]. split; [simpl; lia|].
  apply (findNearestNeighbor_answers_or_reads_one_past_end 3 ltac:(lia)
           five_points (Point3 4 4 4) 6).
  simpl; lia.
Defined.

Section SearchValues.
Variable Dim : Z.
Hypothesis Dim_pos : 0 < Dim.
Implicit Types (points : list (Point Dim)) (query : Point Dim).

(** One level of [nearestIndex] that returned: the median read, the result of
    the first descent, and the point returned, which is at least as near to
    the query as both. *)
Lemma nearestIndex_step points query fuel low high d r :
  nearestIndex Dim (S fuel) points query low high d = Ok r ->
  low <= high -> 0 <= d < Dim ->
  exists pm cb pc pr,
    at_ points ((low + high) ÷ 2) = Some pm
    /\ (if dimLt Dim query pm d
        then nearestIndex Dim fuel points query low ((low + high) ÷ 2 - 1)
               (Z.rem (d + 1) Dim)
        else nearestIndex Dim fuel points query ((low + high) ÷ 2 + 1) high
               (Z.rem (d + 1) Dim)) = Ok cb
    /\ at_ points cb = Some pc
    /\ at_ points r = Some pr
    /\ distanceSquared Dim query pr <= distanceSquared Dim query pm
    /\ distanceSquared Dim query pr <= distanceSquared Dim query pc.
Proof.
  intros H Hle Hd. cbn [nearestIndex] in H.
  destruct (Z.gtb_spec low high); [lia|].
  set (m := (low + high) ÷ 2) in *.
  destruct (vector_at points m) as [pm|] eqn:Epm; [|discriminate].
  rewrite !bind_Ok in H.
  rewrite smallerDimVal_valid in H by exact Hd. rewrite bind_Ok in H.
  match type of H with (?s ≫= _) = _ =>
    destruct s as [cb|] eqn:Ecb; [|discriminate] end.
  rewrite bind_Ok in H.
  destruct (vector_at points cb) as [pc|] eqn:Epc; [|discriminate].
  rewrite !bind_Ok in H.
  rewrite !Point_at_valid in H by exact Hd. rewrite !bind_Ok in H.
  apply vector_at_Ok_inv in Epm, Epc.
  pose proof (shouldReplace_nearer Dim query pc pm) as N1. cbn zeta in N1.
  set (cb' := if shouldReplace Dim query pc pm then m else cb) in *.
  set (pc0 := if shouldReplace Dim query pc pm then pm else pc) in *.
  assert (Hpc0 : at_ points cb' = Some pc0)
    by (subst cb' pc0; destruct (shouldReplace Dim query pc pm); assumption).
  rewrite (vector_at_Ok _ _ _ Hpc0), !bind_Ok in H.
  destruct (_ <=? _).
  - match type of H with (?s ≫= _) = _ =>
      destruct s as [pb|] eqn:Epb; [|discriminate] end.
    rewrite !bind_Ok in H.
    destruct (vector_at points pb) as [pp|] eqn:Epp; [|discriminate].
    rewrite bind_Ok in H. apply vector_at_Ok_inv in Epp.
    pose proof (shouldReplace_nearer Dim query pc0 pp) as N2. cbn zeta in N2.
    injection H as <-.
    exists pm, cb, pc, (if shouldReplace Dim query pc0 pp then pp else pc0).
    split; [exact Epm|]. split; [exact Ecb|]. split; [exact Epc|].
    split; [destruct (shouldReplace Dim query pc0 pp); assumption|]. lia.
  - injection H as <-. exists pm, cb, pc, pc0.
    split; [exact Epm|]. split; [exact Ecb|]. split; [exact Epc|].
    split; [exact Hpc0|]. lia.
Qed.

(** In a range of a built tree that holds the query, whatever
    [nearestIndex] returns is at distance zero from the query. *)
Lemma nearestIndex_self points query : forall fuel low high d i r,
  (forall l h d', in_tree Dim low high d l h d' -> split_ok Dim points l h d') ->
  0 <= d < Dim -> low <= i <= high -> at_ points i = Some query ->
  nearestIndex Dim fuel points query low high d = Ok r ->
  exists pr, at_ points r = Some pr /\ distanceSquared Dim query pr = 0.
Proof.
  induction fuel as [|fuel IH]; intros low high d i r Inv Hd Hi Hq H;
    [discriminate|].
  destruct (nearestIndex_step points query fuel low high d r H ltac:(lia) Hd)
    as (pm & cb & pc & pr & Hpm & Ecb & Hpc & Hpr & Npm & Npc).
  exists pr. split; [exact Hpr|].
  pose proof (distanceSquared_nonneg Dim query pr) as N0.
  pose proof (next_dim_valid Dim Dim_pos d Hd) as Hd'.
  set (m := (low + high) ÷ 2) in *.
  assert (A : distanceSquared Dim query pm = 0
              \/ distanceSquared Dim query pc = 0).
  { destruct (Inv low high d (in_tree_here Dim low high d) pm Hpm i query
                ltac:(lia) Hq) as [Lo Hi'].
    destruct (Z.lt_trichotomy i m) as [Hlt|[Heq|Hgt]].
    - specialize (Lo Hlt). destruct (dimLt Dim query pm d) eqn:Eb.
      + right. destruct (IH low (m - 1) (Z.rem (d + 1) Dim) i cb)
          as (p' & Hp' & D'); try assumption; try lia.
        { intros l h d' Ht. apply Inv. apply in_tree_left; [lia|exact Ht]. }
        congruence.
      + left. rewrite (dimLt_total Dim query pm d Eb Lo).
        apply distanceSquared_refl.
    - left. subst i. assert (pm = query) by congruence. subst pm.
      apply distanceSquared_refl.
    - specialize (Hi' Hgt). rewrite Hi' in Ecb.
      right. destruct (IH (m + 1) high (Z.rem (d + 1) Dim) i cb)
        as (p' & Hp' & D'); try assumption; try lia.
      { intros l h d' Ht. apply Inv. apply in_tree_right; [lia|exact Ht]. }
      congruence. }
  lia.
Qed.

Lemma findNearestNeighbor_outcome points query fuel :
  (length points < fuel)%nat ->
  outcome (VectorOutOfRange (Z.of_nat (length points)))
    (fun p => p ∈ points) (findNearestNeighbor Dim fuel points query).
Proof.
  intros Hfuel. unfold findNearestNeighbor. eapply outcome_bind.
  - apply (nearestIndex_outcome Dim Dim_pos points query fuel 0
             (Z.of_nat (length points) - 1) 0); lia.
  - cbn beta. intros r [Hr _].
    eapply outcome_weaken; [apply (outcome_vector_at points r); lia|].
    cbn beta. intros p Hp. eapply at_elem_of, Hp.
Qed.


(** X9.  Where the search computes exactly, whenever [nearestIndex] returns
    from a non-empty range, the point at the index returned is at least as
    near to the query as the median of the range: the answer of
    [findNearestNeighbor] is never farther than the root of the tree. *)
Theorem nearestIndex_no_farther_than_median points query fuel low high d r :
  exact_search Dim query points ->
  nearestIndex Dim fuel points query low high d = Ok r ->
  low <= high -> 0 <= d < Dim ->
  exists pr pm,
    at_ points r = Some pr
    /\ at_ points ((low + high) ÷ 2) = Some pm
    /\ distanceSquared Dim query pr <= distanceSquared Dim query pm.
Proof.
  intros _ H Hle Hd. destruct fuel as [|fuel]; [discriminate|].
  destruct (nearestIndex_step points query fuel low high d r H Hle Hd)
    as (pm & cb & pc & pr & Hpm & _ & _ & Hpr & Npm & _).
  exists pr, pm. auto.
Qed.
End SearchValues.


Lemma three_points_exact_search :
  exact_search 3 (Point3 4 10 0) three_points.
Proof.
  split; [repeat constructor; vm_compute; discriminate|].
  intros p Hp. apply list_elem_of_In in Hp. simpl in Hp.
  destruct Hp as [<-|[<-|[<-|[]]]];
    (split; [repeat constructor; vm_compute; discriminate
            |vm_compute; discriminate]).
Qed.

Lemma nearestIndex_no_farther_than_median_witness :
  exact_search 3 (Point3 4 10 0) three_points
  /\ nearestIndex 3 6 three_points (Point3 4 10 0) 0 2 0 = Ok 1
  /\ 0 <= 2 /\ 0 <= 0 < 3
  /\ exists pr pm,
       at_ three_points 1 = Some pr
       /\ at_ three_points ((0 + 2) ÷ 2) = Some pm
       /\ distanceSquared 3 (Point3 4 10 0) pr
          <= distanceSquared 3 (Point3 4 10 0) pm.
Proof.
  assert (H : nearestIndex 3 6 three_points (Point3 4 10 0) 0 2 0 = Ok 1)
    by (vm_compute; reflexivity).
  split; [exact three_points_exact_search|]. split; [exact H|].
  split; [lia|]. split; [lia|].
  apply (nearestIndex_no_farther_than_median 3 three_points (Point3 4 10 0)
           6 0 2 0 1 three_points_exact_search H); lia.
Defined.

Lemma points_exact_distance (a b : Point 3) :
  a ∈ three_points -> b ∈ three_points -> exact_distance 3 a b.
Proof.
  intros Ha Hb. apply list_elem_of_In in Ha, Hb. simpl in Ha, Hb.
  destruct Ha as [<-|[<-|[<-|[]]]]; destruct Hb as [<-|[<-|[<-|[]]]];
    (split; [|split];
     [repeat constructor; vm_compute; discriminate
     |repeat constructor; vm_compute; discriminate
     |vm_compute; discriminate]).
Qed.

Lemma distanceSquared_metric_witness :
  exact_distance 3 (Point3 0 100 0) (Point3 5 0 0)
  /\ 0 <= distanceSquared 3 (Point3 0 100 0) (Point3 5 0 0)
  /\ distanceSquared 3 (Point3 0 100 0) (Point3 5 0 0)
     = distanceSquared 3 (Point3 5 0 0) (Point3 0 100 0)
  /\ (distanceSquared 3 (Point3 0 100 0) (Point3 5 0 0) = 0
      <-> Point3 0 100 0 = Point3 5 0 0).
Proof.
  assert (E : exact_distance 3 (Point3 0 100 0) (Point3 5 0 0)).
  { apply points_exact_distance; apply list_elem_of_In; simpl; auto. }
  split; [exact E|].
  apply (distanceSquared_metric 3 (Point3 0 100 0) (Point3 5 0 0) E).
Defined.

Lemma shouldReplace_total_choice_witness :
  exact_distance 3 (Point3 6 10 0) (Point3 0 100 0)
  /\ exact_distance 3 (Point3 6 10 0) (Point3 5 0 0)
  /\ (let best := if shouldReplace 3 (Point3 6 10 0) (Point3 0 100 0)
                       (Point3 5 0 0)
                  then Point3 5 0 0 else Point3 0 100 0 in
      distanceSquared 3 (Point3 6 10 0) best
      <= distanceSquared 3 (Point3 6 10 0) (Point3 0 100 0)
      /\ distanceSquared 3 (Point3 6 10 0) best
         <= distanceSquared 3 (Point3 6 10 0) (Point3 5 0 0))
  /\ shouldReplace 3 (Point3 6 10 0) (Point3 0 100 0) (Point3 0 100 0) = true
  /\ (Point3 0 100 0 <> Point3 5 0 0 ->
      shouldReplace 3 (Point3 6 10 0) (Point3 0 100 0) (Point3 5 0 0)
      = negb (shouldReplace 3 (Point3 6 10 0) (Point3 5 0 0)
                (Point3 0 100 0))).
Proof.
  assert (E1 : exact_distance 3 (Point3 6 10 0) (Point3 0 100 0)).
  { apply points_exact_distance; apply list_elem_of_In; simpl; auto. }
  assert (E2 : exact_distance 3 (Point3 6 10 0) (Point3 5 0 0)).
  { apply points_exact_distance; apply list_elem_of_In; simpl; auto. }
  split; [exact E1|]. split; [exact E2|].
  apply (shouldReplace_total_choice 3 (Point3 6 10 0) (Point3 0 100 0)
           (Point3 5 0 0) E1 E2).
Defined.


(** ** The tree of one point *)

Section OnePoint.
Variable Dim : Z.
Implicit Types (p q : Point Dim).

(** X10.  On the tree of a single point [p] the constructor keeps the point,
    and [findNearestNeighbor] returns [p] exactly for the queries that
    precede [p] along dimension 0; for every other query the descent into
    the empty right range hands back the sentinel 1 and [points[1]] is
    read. *)
Theorem findNearestNeighbor_single_point p q fuel :
  KDTree Dim (S fuel) [p] = Ok [p]
  /\ (smallerDimVal Dim q p 0 = Ok true ->
      findNearestNeighbor Dim (S (S fuel)) [p] q = Ok p)
  /\ (smallerDimVal Dim q p 0 = Ok false ->
      findNearestNeighbor Dim (S (S fuel)) [p] q = Err (VectorOutOfRange 1)).
Proof.
  split; [reflexivity|].
  assert (Hself : shouldReplace Dim q p p = true)
    by (apply shouldReplace_spec; left; reflexivity).
  unfold findNearestNeighbor. cbn [length].
  change (Z.of_nat 1 - 1) with 0. cbn [nearestIndex].
  change (0 >? 0) with false. change ((0 + 0) ÷ 2) with 0. cbn iota.
  change (vector_at [p] 0) with (Ok p). rewrite !bind_Ok.
  split; intros Hs; rewrite Hs, bind_Ok; cbn iota.
  - assert (Hd : 0 <= 0 < Dim).
    { unfold smallerDimVal, smallerDimVal_run in Hs.
      destruct (Z.geb_spec 0 Dim); [simpl in Hs; discriminate|lia]. }
    change (0 >? 0 - 1) with true. cbn iota. rewrite !bind_Ok.
    change (vector_at [p] 0) with (Ok p). rewrite !bind_Ok, Hself.
    rewrite (Point_at_valid Dim p 0 Hd), (Point_at_valid Dim q 0 Hd).
    rewrite !bind_Ok. change (vector_at [p] 0) with (Ok p). rewrite !bind_Ok.
    change (0 >=? 0) with true. cbn iota.
    destruct (_ <=? _); [|reflexivity].
    rewrite !bind_Ok. change (vector_at [p] 0) with (Ok p).
    rewrite !bind_Ok, Hself. reflexivity.
  - change (0 + 1 >? 0) with true. cbn iota. rewrite !bind_Ok. reflexivity.
Qed.
End OnePoint.

(** ** The tile mapper: the first loop *)

Section TileLoopFacts.
Context {TileImage : Type}.
Variable getAverageColor : TileImage -> RGBAPixel.
Implicit Types (theTiles : list TileImage) (m : gmap (list Z) TileImage).

(** The colour point of a tile. *)
Definition tile_colour (t : TileImage) : Point 3 :=
  pixel_point (getAverageColor t).

Lemma tile_loop_colours theTiles : forall m cs,
  (tile_loop getAverageColor theTiles m cs).2 = cs ++ map tile_colour theTiles.
Proof.
  induction theTiles as [|t rest IH]; intros m cs; simpl.
  - rewrite app_nil_r. reflexivity.
  - rewrite IH, <- app_assoc. reflexivity.
Qed.

Lemma tile_loop_values theTiles : forall m cs k t,
  (tile_loop getAverageColor theTiles m cs).1 !! k = Some t ->
  m !! k = Some t \/ (t ∈ theTiles /\ coords (tile_colour t) = k).
Proof.
  induction theTiles as [|t0 rest IH]; intros m cs k t H; simpl in H; [auto|].
  apply IH in H as [H|[Hin Hk]].
  - apply lookup_insert_Some in H as [[<- <-]|[_ H]]; [|auto].
    right. split; [left|reflexivity].
  - right. split; [right; exact Hin|exact Hk].
Qed.

Lemma tile_loop_keeps theTiles : forall m cs k,
  (forall t, t ∈ theTiles -> coords (tile_colour t) <> k) ->
  (tile_loop getAverageColor theTiles m cs).1 !! k = m !! k.
Proof.
  induction theTiles as [|t0 rest IH]; intros m cs k H; simpl; [reflexivity|].
  rewrite IH by (intros t Ht; apply H; right; exact Ht).
  apply lookup_insert_ne. apply H. left.
Qed.

(** X11.  The first loop of [mapTiles] collects the colour of every tile, in
    order and with repetitions, and maps every colour to the last tile of
    that colour: a tile followed by no tile of the same average colour is
    the one the map holds for its colour, and every tile of the map is one of
    the tiles, stored under its own colour. *)
Theorem first_loop_last_tile_wins theTiles :
  (tile_loop getAverageColor theTiles ∅ []).2 = map tile_colour theTiles
  /\ (forall l1 t l2,
        theTiles = l1 ++ t :: l2 ->
        (forall t', t' ∈ l2 -> tile_colour t' <> tile_colour t) ->
        (tile_loop getAverageColor theTiles ∅ []).1 !! coords (tile_colour t)
        = Some t)
  /\ (forall (p : Point 3) t,
        (tile_loop getAverageColor theTiles ∅ []).1 !! coords p = Some t ->
        t ∈ theTiles /\ tile_colour t = p).
Proof.
  split; [apply tile_loop_colours|]. split.
  - intros l1 t l2 -> Hlast. generalize (∅ : gmap (list Z) TileImage).
    generalize (@nil (Point 3)).
    induction l1 as [|t0 l1 IH]; intros cs m; simpl.
    + rewrite tile_loop_keeps; [apply lookup_insert_eq|].
      intros t' Ht' E. apply (Hlast t' Ht'). apply Point_eq, E.
    + apply IH.
  - intros p t H. apply tile_loop_values in H as [H|[Hin Hk]].
    + rewrite lookup_empty in H. discriminate.
    + split; [exact Hin|]. apply Point_eq, Hk.
Qed.
End TileLoopFacts.

(** ** The tile mapper: the region loops, whether or not a query stops *)

Section MapTilesOutcome.
Context {TileImage SourceImage : Type}.
Variable getAverageColor : TileImage -> RGBAPixel.
Variable default_TileImage : TileImage.
Variable getRows getColumns : SourceImage -> Z.
Variable getRegionColor : SourceImage -> Z -> Z -> RGBAPixel.

Section RegionLoops.
Variable theSource : SourceImage.
Variable fuel : nat.
Variable regionColors : list (Point 3).
Variable tileImages0 : gmap (list Z) TileImage.
Hypothesis keys :
  forall p, p ∈ regionColors -> is_Some (tileImages0 !! coords p).
Hypothesis enough : (length regionColors < fuel)%nat.

Abbreviation stop :=
  (VectorOutOfRange (Z.of_nat (length regionColors))).
Abbreviation Good :=
  (good getRegionColor theSource fuel regionColors tileImages0).
Abbreviation body :=
  (region_body default_TileImage getRegionColor theSource fuel regionColors).

Lemma region_body_outcome i j st :
  tileImages st = tileImages0 -> Good (mosaic st) ->
  outcome stop
    (fun st' =>
       tileImages st' = tileImages0 /\ Good (mosaic st')
       /\ queried st' = queried st ++ [(i, j)]
       /\ keeps (mosaic st) (mosaic st')
       /\ is_Some (canvas_tiles (mosaic st') !! (i, j)))
    (body i st j).
Proof.
  intros Hm Hg.
  destruct (findNearestNeighbor_outcome 3 ltac:(lia) regionColors
              (pixel_point (getRegionColor theSource i j)) fuel enough)
    as [(nearest & E & _)|E].
  - destruct (region_body_spec default_TileImage getRegionColor theSource fuel
                regionColors tileImages0 keys i j st Hm Hg)
      as (st' & E' & H'); [exists nearest; exact E|].
    left. exists st'. split; [exact E'|exact H'].
  - right. unfold region_body. cbn zeta. rewrite E. reflexivity.
Qed.

Lemma column_loop_outcome i : forall l st,
  tileImages st = tileImages0 -> Good (mosaic st) ->
  outcome stop
    (fun st' =>
       tileImages st' = tileImages0 /\ Good (mosaic st')
       /\ queried st' = queried st ++ map (pair i) l
       /\ keeps (mosaic st) (mosaic st')
       /\ (forall j, j ∈ l ->
             is_Some (canvas_tiles (mosaic st') !! (i, j))))
    (foldM (body i) l st).
Proof.
  induction l as [|j l IH]; intros st Hm Hg.
  - apply outcome_Ok. simpl. rewrite app_nil_r. repeat split; auto.
    + intros k Hk. exact Hk.
    + intros j Hj. inversion Hj.
  - cbn [foldM]. eapply outcome_bind; [apply region_body_outcome; assumption|].
    cbn beta. intros s1 (M1 & G1 & Q1 & K1 & S1).
    eapply outcome_weaken; [apply IH; assumption|].
    cbn beta. intros s2 (M2 & G2 & Q2 & K2 & S2).
    split; [exact M2|]. split; [exact G2|].
    split; [rewrite Q2, Q1, <- app_assoc; reflexivity|].
    split; [intros k Hk; apply K2, K1, Hk|].
    intros j' Hj'. apply elem_of_cons in Hj' as [->|Hj'].
    + apply K2, S1.
    + apply S2, Hj'.
Qed.

Lemma row_loop_outcome columns : forall l st,
  tileImages st = tileImages0 -> Good (mosaic st) ->
  outcome stop
    (fun st' =>
       tileImages st' = tileImages0 /\ Good (mosaic st')
       /\ queried st'
          = queried st ++ flat_map (fun i => map (pair i) columns) l
       /\ keeps (mosaic st) (mosaic st')
       /\ (forall i j, i ∈ l -> j ∈ columns ->
             is_Some (canvas_tiles (mosaic st') !! (i, j))))
    (foldM (fun st i => foldM (body i) columns st) l st).
Proof.
  induction l as [|i l IH]; intros st Hm Hg.
  - apply outcome_Ok. simpl. rewrite app_nil_r. repeat split; auto.
    + intros k Hk. exact Hk.
    + intros i j Hi. inversion Hi.
  - cbn [foldM].
    eapply outcome_bind; [apply (column_loop_outcome i); assumption|].
    cbn beta. intros s1 (M1 & G1 & Q1 & K1 & S1).
    eapply outcome_weaken; [apply IH; assumption|].
    cbn beta. intros s2 (M2 & G2 & Q2 & K2 & S2).
    split; [exact M2|]. split; [exact G2|].
    split; [rewrite Q2, Q1, <- app_assoc; reflexivity|].
    split; [intros k Hk; apply K2, K1, Hk|].
    intros i' j Hi' Hj. apply elem_of_cons in Hi' as [->|Hi'].
    + apply K2, S1, Hj.
    + apply S2; assumption.
Qed.
End RegionLoops.

(** What [mapTiles] does on every input. *)
Lemma mapTiles_total theSource theTiles :
  exists regionColors,
    KDTree 3 (S (length theTiles)) (map (tile_colour getAverageColor) theTiles)
    = Ok regionColors
    /\ outcome (VectorOutOfRange (Z.of_nat (length theTiles)))
         (fun r =>
            r.2 = regions (getRows theSource) (getColumns theSource)
            /\ forall i j,
                 0 <= i < getRows theSource ->
                 0 <= j < getColumns theSource ->
                 exists t,
                   canvas_tiles r.1 !! (i, j) = Some t
                   /\ t ∈ theTiles
                   /\ findNearestNeighbor 3 (S (length theTiles)) regionColors
                        (pixel_point (getRegionColor theSource i j))
                      = Ok (tile_colour getAverageColor t))
         (mapTiles getAverageColor default_TileImage getRows getColumns
            getRegionColor theSource theTiles).
Proof.
  set (colours := map (tile_colour getAverageColor) theTiles).
  assert (Lc : length colours = length theTiles)
    by (subst colours; apply length_map).
  destruct (KDTree_spec 3 ltac:(lia) colours (S (length theTiles))
              ltac:(lia)) as (regionColors & E & P & _).
  assert (Lr : length regionColors = length theTiles)
    by (rewrite <- Lc; symmetry; apply Permutation_length, P).
  exists regionColors. split; [exact E|].
  pose proof (tile_loop_colours getAverageColor theTiles ∅ []) as Hc.
  simpl in Hc. unfold mapTiles.
  destruct (tile_loop getAverageColor theTiles ∅ [])
    as [tileImages0 tileColors] eqn:Et.
  cbn [snd] in Hc. change (tileColors = colours) in Hc. subst tileColors.
  rewrite Lc, E, bind_Ok.
  cbn [canvas_rows canvas_columns new_MosaicCanvas].
  assert (keys : forall p, p ∈ regionColors ->
                   is_Some (tileImages0 !! coords p)).
  { intros p Hp.
    pose proof (tile_loop_keys getAverageColor theTiles ∅ []) as K.
    rewrite Et in K. cbn [fst snd] in K. apply K.
    - intros p' Hp'. inversion Hp'.
    - rewrite P. exact Hp. }
  replace (Z.of_nat (length theTiles))
    with (Z.of_nat (length regionColors)) by lia.
  eapply outcome_bind.
  - apply (row_loop_outcome theSource (S (length theTiles)) regionColors
             tileImages0 keys ltac:(lia)
             (range (getColumns theSource)) (range (getRows theSource))).
    + reflexivity.
    + intros k t Hk. simpl in Hk. rewrite lookup_empty in Hk. discriminate.
  - cbn beta. intros st (_ & G & Q & _ & S). apply outcome_Ok. cbn [fst snd].
    split; [rewrite Q; reflexivity|].
    intros i j Hi Hj.
    destruct (S i j) as [t Ht]; [apply elem_of_seqZ; lia..|].
    exists t. split; [exact Ht|].
    destruct (G _ _ Ht) as (nearest & En & Hn). cbn [fst snd] in En.
    pose proof (tile_loop_values getAverageColor theTiles ∅ []
                  (coords nearest) t) as V.
    rewrite Et in V. cbn [fst] in V.
    destruct (V Hn) as [V0|[Vin Vk]];
      [rewrite lookup_empty in V0; discriminate|].
    split; [exact Vin|]. rewrite En. f_equal. symmetry. apply Point_eq, Vk.
Qed.
End MapTilesOutcome.

Section MapTilesTheorems.
Context {TileImage SourceImage : Type}.
Variable getAverageColor : TileImage -> RGBAPixel.
Variable default_TileImage : TileImage.
Variable getRows getColumns : SourceImage -> Z.
Variable getRegionColor : SourceImage -> Z -> Z -> RGBAPixel.

Abbreviation run :=
  (mapTiles getAverageColor default_TileImage getRows getColumns
     getRegionColor).

(** X12.  On every source image and tile list [mapTiles] either stops at the
    read of [points[n]] made by a query of the tree of the [n] tile colours,
    or returns a canvas after querying the tree exactly once per region, in
    the order of the loops; the tile set at each region is then one of the
    given tiles, never the default tile, and its average colour is the point
    the tree returned for the colour of the region. *)
Theorem mapTiles_assembles_or_stops theSource theTiles :
  exists regionColors,
    KDTree 3 (S (length theTiles)) (map (tile_colour getAverageColor) theTiles)
    = Ok regionColors
    /\ ((exists canvas,
           run theSource theTiles
           = Ok (canvas, regions (getRows theSource) (getColumns theSource))
           /\ forall i j,
                0 <= i < getRows theSource ->
                0 <= j < getColumns theSource ->
                exists t,
                  canvas_tiles canvas !! (i, j) = Some t
                  /\ t ∈ theTiles
                  /\ findNearestNeighbor 3 (S (length theTiles)) regionColors
                       (pixel_point (getRegionColor theSource i j))
                     = Ok (tile_colour getAverageColor t))
        \/ run theSource theTiles
           = Err (VectorOutOfRange (Z.of_nat (length theTiles)))).
Proof.
  destruct (mapTiles_total getAverageColor default_TileImage getRows
              getColumns getRegionColor theSource theTiles)
    as (regionColors & E & O).
  exists regionColors. split; [exact E|].
  destruct O as [([canvas log] & Er & Hlog & Htiles)|Eerr]; [left|right; exact Eerr].
  cbn [fst snd] in *. subst log. exists canvas. split; [exact Er|exact Htiles].
Qed.

Lemma foldM_skip {S A B} (f : A -> S -> B -> result S) (l : list A) (s : S) :
  foldM (fun s i => foldM (f i) [] s) l s = Ok s.
Proof. induction l as [|a l IH]; simpl; [reflexivity|exact IH]. Qed.

(** X13.  The empty inputs of [mapTiles].  With no tile and at least one
    region the first query reads [points[0]] of the empty tree and nothing
    is returned; with no region (no row or no column) no query is made and
    the empty canvas is returned, whatever the tiles. *)
Theorem mapTiles_empty_inputs theSource theTiles :
  (0 < getRows theSource -> 0 < getColumns theSource ->
   run theSource [] = Err (VectorOutOfRange 0))
  /\ (getRows theSource <= 0 \/ getColumns theSource <= 0 ->
      run theSource theTiles
      = Ok (new_MosaicCanvas TileImage (getRows theSource)
              (getColumns theSource), [])).
Proof.
  split.
  - intros Hr Hc.
    destruct (mapTiles_total getAverageColor default_TileImage getRows
                getColumns getRegionColor theSource [])
      as (regionColors & E & [(r & Er & _ & Htiles)|Eerr]); [|exact Eerr].
    destruct (Htiles 0 0 ltac:(lia) ltac:(lia)) as (t & _ & Hin & _).
    inversion Hin.
  - intros Hempty. unfold mapTiles.
    destruct (tile_loop getAverageColor theTiles ∅ [])
      as [tileImages0 tileColors].
    destruct (KDTree_spec 3 ltac:(lia) tileColors (S (length tileColors))
                ltac:(lia)) as (regionColors & E & _).
    rewrite E, bind_Ok. cbn [canvas_rows canvas_columns new_MosaicCanvas].
    unfold range. destruct Hempty as [Hr|Hc].
    + replace (seqZ 0 (getRows theSource)) with (@nil Z)
        by (unfold seqZ; replace (Z.to_nat (getRows theSource)) with 0%nat
              by lia; reflexivity).
      reflexivity.
    + replace (seqZ 0 (getColumns theSource)) with (@nil Z)
        by (unfold seqZ; replace (Z.to_nat (getColumns theSource)) with 0%nat
              by lia; reflexivity).
      rewrite (foldM_skip (region_body default_TileImage getRegionColor
                             theSource (S (length tileColors)) regionColors)).
      rewrite bind_Ok. reflexivity.
Qed.
End MapTilesTheorems.

(** ** The wiring of the tile mapper *)

Section MapTilesWiring.
Context {TileImage SourceImage : Type}.
Variable getAverageColor : TileImage -> RGBAPixel.
Variable default_TileImage : TileImage.
Variable getRows getColumns : SourceImage -> Z.
Variable getRegionColor : SourceImage -> Z -> Z -> RGBAPixel.

(** Of the queries made for the regions [l], either every one returns a
    point or one of them stops at the read of [points[n]]. *)
Lemma queries_answered_or_stop theSource fuel (regionColors : list (Point 3)) :
  (length regionColors < fuel)%nat ->
  forall l : list (Z * Z),
    (forall k, k ∈ l ->
       answered getRegionColor theSource fuel regionColors k.1 k.2)
    \/ (exists k, k ∈ l
          /\ findNearestNeighbor 3 fuel regionColors
               (pixel_point (getRegionColor theSource k.1 k.2))
             = Err (VectorOutOfRange (Z.of_nat (length regionColors)))).
Proof.
  intros Hfuel. induction l as [|a l IH].
  - left. intros k Hk. inversion Hk.
  - destruct (findNearestNeighbor_outcome 3 ltac:(lia) regionColors
                (pixel_point (getRegionColor theSource a.1 a.2)) fuel Hfuel)
      as [(nearest & E & _)|E].
    + destruct IH as [All|(k & Hk & Ek)].
      * left. intros k Hk. apply elem_of_cons in Hk as [->|Hk];
          [exists nearest; exact E|apply All, Hk].
      * right. exists k. split; [right; exact Hk|exact Ek].
    + right. exists a. split; [left|exact E].
Qed.

End MapTilesWiring.
